(** * burp: a shallow embedding of [burp.c]

    The development follows the layout of the C file: the category table
    and its binary-search lookup, the string helpers, the configuration
    file reader, the command-line option loop, the login fallback and the
    upload loop of [main].

    C strings are modelled by [string] (no embedded NUL), a possibly-NULL
    [char *] by [option string], [int] by [Z] and [size_t] by [nat].
    Everything that lives outside [burp.c] (libc, the AUR client of
    [aur.h]) is a field of an interface record and is never given a
    body here. *)

From Equations Require Import Equations.
From Stdlib Require Import ZArith List String Ascii Bool Arith Lia Sorted.
Import ListNotations.

Local Open Scope string_scope.
Local Open Scope Z_scope.

(** ** errno.h and stdlib.h constants (Linux, asm-generic numbering) *)

Definition ENOENT : Z := 2.
Definition EACCES : Z := 13.
Definition EINVAL : Z := 22.
Definition EBADR : Z := 53.
Definition ENOKEY : Z := 126.
Definition EKEYEXPIRED : Z := 127.
Definition EKEYREJECTED : Z := 129.

Definition EXIT_SUCCESS : Z := 0.
Definition EXIT_FAILURE : Z := 1.

(** ** string.h *)

(** A character read as [unsigned char]. *)
Definition uchar (c : ascii) : Z := Z.of_N (N_of_ascii c).

(** [strcmp]: the difference of the first two bytes that differ, the
    terminating NUL counting as byte 0. *)
Fixpoint strcmp (a b : string) : Z :=
  match a, b with
  | EmptyString, EmptyString => 0
  | EmptyString, String d _ => 0 - uchar d
  | String c _, EmptyString => uchar c
  | String c a', String d b' =>
      if Ascii.eqb c d then strcmp a' b' else uchar c - uchar d
  end.

(** [streq(a, b)] is [strcmp(a, b) == 0] (util.h). *)
Definition streq (a b : string) : bool := strcmp a b =? 0.

(** [isspace] in the C locale: space, \t, \n, \v, \f, \r. *)
Definition isspace (c : ascii) : bool :=
  let n := uchar c in (n =? 32) || ((9 <=? n) && (n <=? 13)).

(** A [string] stands for a C string when no character of it is NUL. *)
Fixpoint cstring (s : string) : bool :=
  match s with
  | EmptyString => true
  | String c s' => negb (Ascii.eqb c "000") && cstring s'
  end.

(** ** The category table *)

Record category_t := { name : string; id : option string }.

(** This list must be sorted *)
Definition categories : list category_t :=
  [ {| name := "daemons";    id := Some "2" |};
    {| name := "devel";      id := Some "3" |};
    {| name := "editors";    id := Some "4" |};
    {| name := "emulators";  id := Some "5" |};
    {| name := "fonts";      id := Some "20" |};
    {| name := "games";      id := Some "6" |};
    {| name := "gnome";      id := Some "7" |};
    {| name := "i18n";       id := Some "8" |};
    {| name := "kde";        id := Some "9" |};
    {| name := "kernels";    id := Some "19" |};
    {| name := "lib";        id := Some "10" |};
    {| name := "modules";    id := Some "11" |};
    {| name := "multimedia"; id := Some "12" |};
    {| name := "network";    id := Some "13" |};
    {| name := "office";     id := Some "14" |};
    {| name := "science";    id := Some "15" |};
    {| name := "system";     id := Some "16" |};
    {| name := "x11";        id := Some "17" |};
    {| name := "xfce";       id := Some "18" |} ].

Definition category_compare (a b : category_t) : Z :=
  strcmp (name a) (name b).

(** ** stdlib.h: [bsearch]

    The loop of the C library: [l] and [u] delimit the candidates, the
    middle element is compared with the key, and the search continues in
    the lower or the upper half.  The recursion is on [u - l]. *)

Section Bsearch.
Context {T : Type}.
Variable compar : T -> T -> Z.
Variable key : T.
Variable base : list T.

Equations? bsearch_loop (l u : nat) : option T by wf (u - l)%nat lt :=
  bsearch_loop l u with lt_dec l u => {
    | right _ := None
    | left Hlu with nth_error base ((l + u) / 2) => {
        | None := None
        | Some p with Z_lt_dec (compar key p) 0 => {
            | left _ := bsearch_loop l ((l + u) / 2)
            | right _ with Z_lt_dec 0 (compar key p) => {
                | left _ := bsearch_loop ((l + u) / 2 + 1) u
                | right _ := Some p } } } }.
Proof.
  all: clear bsearch_loop;
    pose proof (Nat.div_mod_eq (l + u) 2) as E;
    pose proof (Nat.mod_upper_bound (l + u) 2 ltac:(lia)) as B;
    cbn in *; lia.
Qed.

Definition bsearch (nmemb : nat) : option T := bsearch_loop 0 nmemb.
End Bsearch.

Definition ARRAYSIZE {T} (a : list T) : nat := List.length a.

Definition category_validate (cat : string) : option string :=
  let key := {| name := cat; id := None |} in
  let res := bsearch category_compare key categories (ARRAYSIZE categories) in
  match res with
  | Some e => id e
  | None => None
  end.

(** ** String helpers of [burp.c] *)

(** The forward scan of [strtrim]: [left] advances while it points at
    white space. *)
Fixpoint skip_space (s : string) : string :=
  match s with
  | String c s' => if isspace c then skip_space s' else s
  | EmptyString => EmptyString
  end.

(** The backward scan of [strtrim]: [right] retreats from the last
    character while it points at white space, and a NUL is stored after
    it.  The result is what is left of the buffer once its trailing white
    space is cut.  The scan is only run on a buffer whose first character
    is not white space, so it stops inside the buffer. *)
Fixpoint cut_trailing_space (s : string) : string :=
  match s with
  | EmptyString => EmptyString
  | String c s' =>
      match cut_trailing_space s' with
      | EmptyString => if isspace c then EmptyString else String c EmptyString
      | t => String c t
      end
  end.

(** [strtrim] works in place: the result is the returned length and the
    new contents of the buffer.  [strtrim_buf] is the function on a
    non-NULL argument, after the [!str] test. *)
Definition strtrim_buf (str : string) : nat * string :=
  match str with
  | EmptyString => (0%nat, EmptyString)
  | _ =>
      let left := skip_space str in
      match left with
      | EmptyString => (0%nat, EmptyString)
      | _ => let t := cut_trailing_space left in (String.length t, t)
      end
  end.

Definition strtrim (str : option string) : nat * option string :=
  match str with
  | None => (0%nat, None)
  | Some s => let (n, t) := strtrim_buf s in (n, Some t)
  end.

(** The contents [strtrim] leaves in a buffer. *)
Definition trim (s : string) : string := snd (strtrim_buf s).

(** A string of white space only. *)
Fixpoint all_space (s : string) : bool :=
  match s with
  | EmptyString => true
  | String c s' => isspace c && all_space s'
  end.

(** [line[0] == '#'] *)
Definition starts_with_hash (line : string) : bool :=
  match line with
  | String c _ => Ascii.eqb c "#"
  | EmptyString => false
  end.

(** [strchr(delim, c) != NULL] for a non-NUL [c]. *)
Fixpoint strchr (delim : string) (c : ascii) : bool :=
  match delim with
  | EmptyString => false
  | String d delim' => Ascii.eqb d c || strchr delim' c
  end.

(** [strsep(&value, delim)] on a non-NULL [value]: the token that stays at
    the start of the buffer, and the new [value] (NULL when no delimiter
    occurs). *)
Fixpoint strsep (s : string) (delim : string) : string * option string :=
  match s with
  | EmptyString => (EmptyString, None)
  | String c s' =>
      if strchr delim c then (EmptyString, Some s')
      else let (tok, rest) := strsep s' delim in (String c tok, rest)
  end.

Definition nl : string := String (ascii_of_nat 10) EmptyString.
Definition tab : string := String (ascii_of_nat 9) EmptyString.

(** ** Program state, output and the error monad *)

(** The file-scope [arg_*] variables. *)
Record args := {
  arg_domain : string;
  arg_username : option string;
  arg_password : option string;
  arg_cookiefile : option string;
  arg_category : option string;
  arg_persist_cookies : bool }.

Definition initial_args : args :=
  {| arg_domain := "aur.archlinux.org";
     arg_username := None;
     arg_password := None;
     arg_cookiefile := None;
     arg_category := Some "1";
     arg_persist_cookies := false |}.

Definition set_username v (a : args) : args :=
  {| arg_domain := arg_domain a; arg_username := v;
     arg_password := arg_password a; arg_cookiefile := arg_cookiefile a;
     arg_category := arg_category a;
     arg_persist_cookies := arg_persist_cookies a |}.
Definition set_password v (a : args) : args :=
  {| arg_domain := arg_domain a; arg_username := arg_username a;
     arg_password := v; arg_cookiefile := arg_cookiefile a;
     arg_category := arg_category a;
     arg_persist_cookies := arg_persist_cookies a |}.
Definition set_cookiefile v (a : args) : args :=
  {| arg_domain := arg_domain a; arg_username := arg_username a;
     arg_password := arg_password a; arg_cookiefile := v;
     arg_category := arg_category a;
     arg_persist_cookies := arg_persist_cookies a |}.
Definition set_category v (a : args) : args :=
  {| arg_domain := arg_domain a; arg_username := arg_username a;
     arg_password := arg_password a; arg_cookiefile := arg_cookiefile a;
     arg_category := v;
     arg_persist_cookies := arg_persist_cookies a |}.
Definition set_persist_cookies v (a : args) : args :=
  {| arg_domain := arg_domain a; arg_username := arg_username a;
     arg_password := arg_password a; arg_cookiefile := arg_cookiefile a;
     arg_category := arg_category a;
     arg_persist_cookies := v |}.
Definition set_domain v (a : args) : args :=
  {| arg_domain := v; arg_username := arg_username a;
     arg_password := arg_password a; arg_cookiefile := arg_cookiefile a;
     arg_category := arg_category a;
     arg_persist_cookies := arg_persist_cookies a |}.

(** What the process does that can be seen from outside, in order. *)
Inductive event :=
| Stdout (s : string)
| Stderr (s : string)
| AurNew (domain : string) (secure : bool)
| AurSetUsername (s : string)
| AurSetPassword (s : string)
| AurSetCookies (s : string)
| AurSetPersistCookies (b : bool)
| AurLogin (force_password : bool)
| AurUpload (target : string) (category : option string)
| AurFree.

Record world := { globals : args; out : list event }.

(** [Fault]: the C program passed NULL to a function that reads through
    its argument. *)
Inductive result (A : Type) :=
| Ok (a : A)
| Fault.
Arguments Ok {A} a.
Arguments Fault {A}.

Definition M (A : Type) : Type := world -> result (A * world).

Definition ret {A} (a : A) : M A := fun w => Ok (a, w).

Definition bind {A B} (m : M A) (k : A -> M B) : M B :=
  fun w => match m w with
           | Ok (a, w') => k a w'
           | Fault => Fault
           end.

Definition fault {A} : M A := fun _ => Fault.

Declare Scope M_scope.
Delimit Scope M_scope with M.
Notation "x <- m ;; k" := (bind m (fun x => k))
  (at level 61, m at next level, right associativity) : M_scope.
Notation "' pat <- m ;; k" := (bind m (fun x => match x with pat => k end))
  (at level 61, pat pattern, m at next level, right associativity) : M_scope.
Notation "m ;;; k" := (bind m (fun _ => k))
  (at level 61, right associativity) : M_scope.
Local Open Scope M_scope.

Definition emit (e : event) : M unit :=
  fun w => Ok (tt, {| globals := globals w; out := (out w ++ [e])%list |}).

Definition get_args : M args := fun w => Ok (globals w, w).

Definition modify_args (f : args -> args) : M unit :=
  fun w => Ok (tt, {| globals := f (globals w); out := out w |}).

Definition run {A} (m : M A) (a : args) : result (A * world) :=
  m {| globals := a; out := [] |}.

(** ** The environment: libc and the AUR client of [aur.h] *)

Record libc := {
  (** [getenv(name)], NULL when the variable is unset *)
  getenv : string -> option string;
  (** whether the allocation that is to hold this string succeeds
      ([strdup], [asprintf]) *)
  malloc_ok : string -> bool;
  (** [fopen(path, "r")]: the [errno] of the failure, or the stream, given
      by what the successive [fgets(line, BUFSIZ, fp)] calls deliver *)
  fopen : string -> Z + list string;
  (** [wordexp(in, &wexp, WRDE_NOCMD)]: its return value and [we_wordv] *)
  wordexp : string -> Z * list string;
  strerror : Z -> string;
  BURP_VERSION : string }.

(** The session client.  [aur_t] is the opaque session; every operation
    returns the session it leaves behind. *)
Class AurClient (aur_t : Type) := {
  aur_new : string -> bool -> Z * aur_t;
  aur_set_username : aur_t -> string -> aur_t;
  aur_set_password : aur_t -> string -> aur_t;
  aur_set_cookies : aur_t -> string -> aur_t;
  aur_set_persist_cookies : aur_t -> bool -> aur_t;
  (** [aur_login(aur, force_password)] *)
  aur_login : aur_t -> bool -> Z * aur_t;
  (** [aur_upload(aur, path, category, &error)]: the return value and
      the error text left in [error] (NULL when none) *)
  aur_upload : aur_t -> string -> option string -> Z * option string * aur_t }.

(** The command line as [main] sees it through [getopt_long]: the pairs
    (return value, [optarg]) of the successive calls up to the one that
    returns a negative value, and the operands [argv[optind]] ...
    [argv[argc - 1]] left when [parseargs] returns. *)
Record cmdline := {
  getopt_seq : list (Z * string);
  operands : list string }.

Section Burp.
Variable C : libc.
Context {aur_t : Type} {A : AurClient aur_t}.

Definition fprintf_stderr (s : string) : M unit := emit (Stderr s).
Definition printf (s : string) : M unit := emit (Stdout s).

(** [strdup]: reads through its argument, NULL when out of memory. *)
Definition strdup (s : option string) : M (option string) :=
  match s with
  | None => fault
  | Some s => ret (if malloc_ok C s then Some s else None)
  end.

Definition config_path_from (path : string) : M (option string) :=
  if malloc_ok C path then ret (Some path)
  else fprintf_stderr ("error: failed to allocate memory" ++ nl)%string ;;;
       ret None.

Definition find_config_file : M (option string) :=
  match getenv C "XDG_CONFIG_HOME" with
  | Some var => config_path_from (var ++ "/burp/burp.conf")%string
  | None =>
      match getenv C "HOME" with
      | Some var => config_path_from (var ++ "/.config/burp/burp.conf")%string
      | None => ret None
      end
  end.

Definition shell_expand (inp : option string) : M (option string) :=
  match inp with
  | None => fault
  | Some i =>
      let (r, we_wordv) := wordexp C i in
      if r <? 0 then ret None
      else strdup (hd_error we_wordv)
  end.

(** The chain of [streq] tests in the body of the [while (fgets ...)]
  loop, on the trimmed [key] and [value]. *)
Definition config_entry (key : string) (value : option string) : M unit :=
  if streq key "User" then
    v <- strdup value ;;
    match v with
    | None => fprintf_stderr ("error: failed to allocate memory" ++ nl)%string
    | Some _ => modify_args (set_username v)
    end
  else if streq key "Password" then
    v <- strdup value ;;
    match v with
    | None => fprintf_stderr ("error: failed to allocate memory" ++ nl)%string
    | Some _ => modify_args (set_password v)
    end
  else if streq key "Cookies" then
    v <- shell_expand value ;;
    match v with
    | None => fprintf_stderr ("error: failed to allocate memory" ++ nl)%string
    | Some _ => modify_args (set_cookiefile v)
    end
  else if streq key "Persist" then
    modify_args (set_persist_cookies true)
  else ret tt.

(** The body of the [while (fgets ...)] loop, for one line. *)
Definition config_line (line : string) : M unit :=
  let (len, line) := strtrim_buf line in
  if (len =? 0)%nat || starts_with_hash line then ret tt
  else
    let (key, value) := strsep line "=" in
    let (_, key) := strtrim_buf key in
    let (_, value) := strtrim value in
    config_entry key value.

Fixpoint config_lines (lines : list string) : M unit :=
  match lines with
  | [] => ret tt
  | line :: rest => config_line line ;;; config_lines rest
  end.

Definition read_config_file : M Z :=
  config_path <- find_config_file ;;
  match config_path with
  | None =>
      fprintf_stderr ("warning: unable to determine location of config file. "
                      ++ "Skipping." ++ nl)%string ;;;
      ret 0
  | Some path =>
      match fopen C path with
      | inl errno =>
          if negb (errno =? ENOENT) then
            fprintf_stderr ("error: failed to open " ++ path ++ ": "
                            ++ strerror C errno ++ nl)%string ;;;
            ret (- errno)
          else
            (* ignore error when file isn't found *)
            ret 0
      | inr lines => config_lines lines ;;; ret 0
      end
  end.

(** The [for] loop of [usage_categories], over the entries from index
    [i] on. *)
Fixpoint print_categories (rest : list category_t) : M unit :=
  match rest with
  | [] => ret tt
  | c :: rest' =>
      fprintf_stderr (tab ++ name c ++ nl)%string ;;; print_categories rest'
  end.

Definition usage_categories : M unit :=
  fprintf_stderr ("Valid categories:" ++ nl)%string ;;;
  print_categories (firstn (ARRAYSIZE categories) categories).

Definition usage : M unit :=
  fprintf_stderr ("burp " ++ BURP_VERSION C ++ nl ++
    "Usage: burp [options] targets..." ++ nl ++ nl ++
    " Options:" ++ nl ++
    "  -h, --help                Shows this help message." ++ nl ++
    "  -u, --user                AUR login username." ++ nl ++
    "  -p, --password            AUR login password." ++ nl)%string ;;;
  fprintf_stderr (
    "  -c CAT, --category=CAT    Assign the uploaded package with category CAT." ++ nl ++
    "                              This will default to the current category" ++ nl ++
    "                              for pre-existing packages and 'None' for new" ++ nl ++
    "                              packages. -c help will give a list of valid" ++ nl ++
    "                              categories." ++ nl)%string ;;;
  fprintf_stderr (
    "  -C FILE, --cookies=FILE   Use FILE to store cookies rather than the default" ++ nl ++
    "                              temporary file. Useful with the -k option." ++ nl ++
    "  -k, --keep-cookies        Cookies will be persistent and reused for logins." ++ nl ++
    "                              If you specify this option, you must also provide" ++ nl ++
    "                              a path to a cookie file." ++ nl ++
    "  burp also honors a config file. See burp(1) for more information." ++ nl ++ nl)%string.

(** The return values of [getopt_long] that [parseargs] switches on. *)
Definition opt_C : Z := uchar "C".
Definition opt_c : Z := uchar "c".
Definition opt_h : Z := uchar "h".
Definition opt_k : Z := uchar "k".
Definition opt_p : Z := uchar "p".
Definition opt_u : Z := uchar "u".
Definition opt_domain : Z := 128.

Fixpoint parseargs (opts : list (Z * string)) : M Z :=
  match opts with
  | [] => ret 0
  | (opt, optarg) :: rest =>
      if opt <? 0 then ret 0
      else if opt =? opt_C then
        modify_args (set_cookiefile (Some optarg)) ;;; parseargs rest
      else if opt =? opt_c then
        modify_args (set_category (category_validate optarg)) ;;;
        a <- get_args ;;
        match arg_category a with
        | None =>
            fprintf_stderr ("error: invalid category " ++ optarg ++ nl)%string ;;;
            usage_categories ;;;
            ret (- EINVAL)
        | Some _ => parseargs rest
        end
      else if opt =? opt_h then
        usage ;;; ret 0
      else if opt =? opt_k then
        modify_args (set_persist_cookies true) ;;; parseargs rest
      else if opt =? opt_p then
        modify_args (set_password (Some optarg)) ;;; parseargs rest
      else if opt =? opt_u then
        modify_args (set_username (Some optarg)) ;;; parseargs rest
      else if opt =? opt_domain then
        modify_args (set_domain optarg) ;;; parseargs rest
      else ret (- EINVAL)
  end.

Definition make_login_error (err : Z) : M Z :=
  (let e := - err in
   if e =? EBADR then
     fprintf_stderr ("error: insufficient credentials provided to login." ++ nl)%string
   else if e =? EACCES then
     fprintf_stderr ("error: bad username or password." ++ nl)%string
   else if e =? EKEYEXPIRED then
     fprintf_stderr ("error: required login cookie has expired." ++ nl)%string
   else if e =? EKEYREJECTED then
     fprintf_stderr ("error: login cookie not accepted." ++ nl)%string
   else
     fprintf_stderr ("error: failed to login to AUR: "
                     ++ strerror C (- err) ++ nl)%string) ;;;
  ret EXIT_FAILURE.

(** Calls into the client, each recorded in the trace. *)
Definition do_login (aur : aur_t) (force_password : bool) : M (Z * aur_t) :=
  emit (AurLogin force_password) ;;; ret (aur_login aur force_password).

Definition do_upload (aur : aur_t) (target : string) (cat : option string)
  : M (Z * option string * aur_t) :=
  emit (AurUpload target cat) ;;; ret (aur_upload aur target cat).

(** [main], lines 330-342: the first login and the [switch] on its
    result.  Returns [r] as it stands before [if (r < 0)] on line 343. *)
Definition login (aur : aur_t) : M (Z * aur_t) :=
  '(r, aur) <- do_login aur false ;;
  if r <? 0 then
    if r =? - EKEYEXPIRED then
      (* cookie expired *)
      fprintf_stderr ("warning: Your cookie has expired -- using password login"
                      ++ nl)%string ;;;
      (* fallthrough *)
      do_login aur true
    else if r =? - ENOKEY then
      (* cookie not found *)
      do_login aur true
    else ret (r, aur)
  else ret (r, aur).

(** [main], lines 347-358: the loop over the operands. *)
Fixpoint upload_loop (aur : aur_t) (targets : list string) (r : Z)
  : M (Z * aur_t) :=
  match targets with
  | [] => ret (r, aur)
  | target :: rest =>
      a <- get_args ;;
      '(k, error, aur) <- do_upload aur target (arg_category a) ;;
      r <- (if k =? 0 then
              printf ("success: uploaded " ++ target ++ nl)%string ;;; ret r
            else
              fprintf_stderr ("failed to upload " ++ target ++ ": "
                ++ match error with
                   | Some e => e
                   | None => strerror C (- k)
                   end ++ nl)%string ;;;
              ret (if r =? 0 then k else r)) ;;
      upload_loop aur rest r
  end.

Definition set_if {V} (v : option V) (e : V -> event)
    (f : aur_t -> V -> aur_t) (aur : aur_t) : M aur_t :=
  match v with
  | Some x => emit (e x) ;;; ret (f aur x)
  | None => ret aur
  end.

(** [main], lines 360-362. *)
Definition finish (r : Z) : M Z :=
  emit AurFree ;;;
  ret (if r =? 0 then EXIT_SUCCESS else EXIT_FAILURE).

(** [main] from line 330 to the end: login, uploads, exit status. *)
Definition session (aur : aur_t) (targets : list string) : M Z :=
  '(r, aur) <- login aur ;;
  if r <? 0 then make_login_error r else
  '(r, aur) <- upload_loop aur targets r ;;
  finish r.

(** [main] from line 309 on: the command line, the client and the
    session. *)
Definition main_after_config (cmd : cmdline) : M Z :=
  r <- parseargs (getopt_seq cmd) ;;
  if r <? 0 then ret EXIT_FAILURE else
  a <- get_args ;;
  emit (AurNew (arg_domain a) true) ;;;
  let (r, aur) := aur_new (arg_domain a) true in
  if r <? 0 then
    fprintf_stderr ("error: failed to create AUR client: "
                    ++ strerror C (- r) ++ nl)%string ;;;
    ret EXIT_FAILURE
  else
  aur <- set_if (arg_username a) AurSetUsername aur_set_username aur ;;
  aur <- set_if (arg_password a) AurSetPassword aur_set_password aur ;;
  aur <- set_if (arg_cookiefile a) AurSetCookies aur_set_cookies aur ;;
  aur <- set_if (if arg_persist_cookies a then Some true else None)
           AurSetPersistCookies aur_set_persist_cookies aur ;;
  session aur (operands cmd).

Definition main (cmd : cmdline) : M Z :=
  r <- read_config_file ;;
  if r <? 0 then ret EXIT_FAILURE else
  main_after_config cmd.

(** *** Per-target outcomes

    What the client answers to the uploads of [targets], one after the
    other, starting from the session [aur]. *)
Fixpoint outcomes (aur : aur_t) (cat : option string) (targets : list string)
  : list (string * Z * option string) :=
  match targets with
  | [] => []
  | t :: rest =>
      let '(k, error, aur') := aur_upload aur t cat in
      (t, k, error) :: outcomes aur' cat rest
  end.

(** The call and the line reported for one outcome. *)
Definition report (cat : option string) (o : string * Z * option string)
  : list event :=
  let '(t, k, error) := o in
  [ AurUpload t cat;
    if k =? 0 then Stdout ("success: uploaded " ++ t ++ nl)%string
    else Stderr ("failed to upload " ++ t ++ ": "
                 ++ match error with
                    | Some e => e
                    | None => strerror C (- k)
                    end ++ nl)%string ].
End Burp.

Arguments session C {aur_t A} aur targets.
Arguments main_after_config C {aur_t A} cmd.
Arguments main C {aur_t A} cmd.
Arguments outcomes {aur_t A} aur cat targets.
Arguments login {aur_t A} aur.
Arguments upload_loop C {aur_t A} aur targets r.

(** [add_out w evs]: the world [w] after the events [evs] were output. *)
Definition add_out (w : world) (evs : list event) : world :=
  {| globals := globals w; out := (out w ++ evs)%list |}.

(** [with_args f w]: the world [w] after its [arg_*] variables were
    updated by [f]. *)
Definition with_args (f : args -> args) (w : world) : world :=
  {| globals := f (globals w); out := out w |}.

(** The lines [usage_categories] writes for the table [l]. *)
Definition category_listing (l : list category_t) : list event :=
  Stderr ("Valid categories:" ++ nl)%string
  :: map (fun n => Stderr (tab ++ n ++ nl)%string) (map name l).

Definition target_of (o : string * Z * option string) : string := fst (fst o).
Definition code_of (o : string * Z * option string) : Z := snd (fst o).

(** The first code that is not 0, and 0 when there is none. *)
Fixpoint first_failure (codes : list Z) : Z :=
  match codes with
  | [] => 0
  | k :: rest => if k =? 0 then first_failure rest else k
  end.

(** The warning of line 335. *)
Definition expiry_warning : event :=
  Stderr ("warning: Your cookie has expired -- using password login" ++ nl)%string.

Definition is_login (e : event) : bool :=
  match e with AurLogin _ => true | _ => false end.

Definition is_upload (e : event) : bool :=
  match e with AurUpload _ _ => true | _ => false end.

Definition count_logins (evs : list event) : nat :=
  List.length (filter is_login evs).

(** [outputs P m]: every run of [m] that returns only adds events that
    satisfy [P]. *)
Definition outputs {X} (P : event -> Prop) (m : M X) : Prop :=
  forall w x w', m w = Ok (x, w') ->
    exists evs, out w' = (out w ++ evs)%list /\ Forall P evs.

(** An event that is neither a login nor an upload. *)
Definition quiet (e : event) : Prop :=
  is_login e = false /\ is_upload e = false.

(** The reading of the exit status as the code of the first failed
    upload: after a login that returned 0, [main] would return what the
    first failing [aur_upload] returned. *)
Definition exit_status_is_first_failure_code : Prop :=
  forall (C : libc) (aur_t : Type) (A : AurClient aur_t)
         (aur aur1 : aur_t) (targets : list string) (w w1 w' : world)
         (status : Z),
    login aur w = Ok ((0, aur1), w1) ->
    session C aur targets w = Ok (status, w') ->
    status = first_failure
               (map code_of (outcomes aur1 (arg_category (globals w1)) targets)).

(** *** The two sources of the [arg_*] variables

    [last_optarg o opts]: the argument of the last option [o] on the
    command line, if there is one. *)
Fixpoint last_optarg (o : Z) (opts : list (Z * string)) : option string :=
  match opts with
  | [] => None
  | (o', a) :: rest =>
      match last_optarg o rest with
      | Some x => Some x
      | None => if o' =? o then Some a else None
      end
  end.

(** An option that [parseargs] handles and then goes on from: any option
    of burp but the request for help, with a category of the table. *)
Definition accepted_option (p : Z * string) : bool :=
  let (opt, optarg) := p in
  (opt =? opt_C) || (opt =? opt_k) || (opt =? opt_p) || (opt =? opt_u)
  || (opt =? opt_domain)
  || ((opt =? opt_c)
      && match category_validate optarg with Some _ => true | None => false end).

(** The entry written on a configuration line, [Key = Value]: the key
    and the value without the white space around them; a line with no [=]
    has a key and no value; blank lines and comments hold no entry. *)
Definition line_entry (line : string) : option (string * option string) :=
  let t := trim line in
  if (String.length t =? 0)%nat || starts_with_hash t then None
  else let (key, value) := strsep t "=" in
       Some (trim key, option_map trim value).


(** *** Vocabulary for the properties of the whole program *)

Definition is_nil {T} (l : list T) : bool :=
  match l with [] => true | _ :: _ => false end.

(** The entries on which the loop body of [read_config_file] hands a NULL
    pointer to [strdup] or to [wordexp]: a [User], [Password] or [Cookies]
    entry without a value, and a [Cookies] value for which [wordexp] does
    not fail and leaves no word. *)
Definition entry_faults (C : libc) (key : string) (value : option string)
  : bool :=
  if streq key "User" || streq key "Password" then
    match value with None => true | Some _ => false end
  else if streq key "Cookies" then
    match value with
    | None => true
    | Some v => let (r, we_wordv) := wordexp C v in
                negb (r <? 0) && is_nil we_wordv
    end
  else false.

Definition line_faults (C : libc) (line : string) : bool :=
  match line_entry line with
  | Some (k, v) => entry_faults C k v
  | None => false
  end.

Definition is_stderr (e : event) : bool :=
  match e with Stderr _ => true | _ => false end.


(** A category that can be sent to the server: the initial id or the id
    of an entry of the table. *)
Definition valid_category (c : option string) : Prop :=
  c = Some "1" \/ exists e, In e categories /\ c = id e.

(** [keeps I m]: every run of [m] that returns keeps the property [I] of
    the [arg_*] variables. *)
Definition keeps {X} (I : args -> Prop) (m : M X) : Prop :=
  forall w x w', m w = Ok (x, w') -> I (globals w) -> I (globals w').

(** [main], lines 321-328: the setters called on the new client, and the
    events they leave. *)
Definition setter_events (a : args) : list event :=
  (match arg_username a with Some u => [AurSetUsername u] | None => [] end
   ++ match arg_password a with Some p => [AurSetPassword p] | None => [] end
   ++ match arg_cookiefile a with Some c => [AurSetCookies c] | None => [] end
   ++ if arg_persist_cookies a then [AurSetPersistCookies true] else [])%list.

Definition configure {aur_t} {A : AurClient aur_t} (aur : aur_t) (a : args)
  : aur_t :=
  let aur := match arg_username a with
             | Some u => aur_set_username aur u | None => aur end in
  let aur := match arg_password a with
             | Some p => aur_set_password aur p | None => aur end in
  let aur := match arg_cookiefile a with
             | Some c => aur_set_cookies aur c | None => aur end in
  if arg_persist_cookies a then aur_set_persist_cookies aur true else aur.

(** What [main] does before the first login: lines on the error stream,
    the creation of the client and its setters. *)
Definition is_setup (e : event) : bool :=
  match e with
  | Stderr _ | AurNew _ _ | AurSetUsername _ | AurSetPassword _
  | AurSetCookies _ | AurSetPersistCookies _ => true
  | _ => false
  end.


(** ** Concrete environments, for running the model *)

Module Demo.

(** A user with a home directory; [config] is what opening the
    configuration file gives. *)
Definition env (config : Z + list string) : libc :=
  {| getenv := fun v => if String.eqb v "HOME" then Some "/home/u" else None;
     malloc_ok := fun _ => true;
     fopen := fun _ => config;
     wordexp := fun s => (0, [s]);
     strerror := fun e => if e =? 5 then "Input/output error"
                          else "Permission denied";
     BURP_VERSION := "2.2" |}.

(** A scripted client: the session counts the login calls, the two
    logins answer [first] and [second], and an upload answers
    [code target]. *)
Definition client (first second : Z) (code : string -> Z) : AurClient nat :=
  {| aur_new := fun _ _ => (0, 0%nat);
     aur_set_username := fun a _ => a;
     aur_set_password := fun a _ => a;
     aur_set_cookies := fun a _ => a;
     aur_set_persist_cookies := fun a _ => a;
     aur_login := fun a force => (if force then second else first, S a);
     aur_upload := fun a t _ => (code t, None, a) |}.

Definition bad_is (t : string) (k : Z) : string -> Z :=
  fun x => if String.eqb x t then k else 0.

End Demo.


(** * Properties *)

(** ** [strcmp] *)

Lemma uchar_inj c d : uchar c = uchar d -> c = d.
Proof.
  unfold uchar. intros H. apply N2Z.inj in H.
  rewrite <- (ascii_N_embedding c), <- (ascii_N_embedding d). now rewrite H.
Qed.

Lemma uchar_nonneg c : 0 <= uchar c.
Proof. unfold uchar. lia. Qed.

Lemma uchar_pos c : Ascii.eqb c "000" = false -> 0 < uchar c.
Proof.
  intros H. pose proof (uchar_nonneg c).
  assert (uchar c <> 0); [|lia].
  intros E. change 0 with (uchar "000") in E. apply uchar_inj in E.
  subst c. discriminate.
Qed.

Lemma strcmp_refl a : strcmp a a = 0.
Proof. induction a as [|c a IH]; simpl; [|rewrite Ascii.eqb_refl]; auto. Qed.

Lemma strcmp_eq a : forall b,
  cstring a = true -> cstring b = true -> strcmp a b = 0 -> a = b.
Proof.
  induction a as [|c a IH]; intros [|d b] Ha Hb; simpl in *; auto.
  - apply andb_prop in Hb as [Hd _]. apply negb_true_iff, uchar_pos in Hd. lia.
  - apply andb_prop in Ha as [Hc _]. apply negb_true_iff, uchar_pos in Hc. lia.
  - apply andb_prop in Ha as [_ Ha]. apply andb_prop in Hb as [_ Hb].
    destruct (Ascii.eqb_spec c d) as [->|Hne]; intros H.
    + f_equal. now apply IH.
    + exfalso. apply Hne, uchar_inj. lia.
Qed.

Lemma strcmp_antisym a : forall b, strcmp a b < 0 -> 0 < strcmp b a.
Proof.
  induction a as [|c a IH]; intros [|d b]; cbn [strcmp]; try lia.
  rewrite (Ascii.eqb_sym d c).
  destruct (Ascii.eqb c d); [apply IH | lia].
Qed.

Lemma strcmp_antisym_gt a : forall b, 0 < strcmp a b -> strcmp b a < 0.
Proof.
  induction a as [|c a IH]; intros [|d b]; cbn [strcmp]; try lia.
  rewrite (Ascii.eqb_sym d c).
  destruct (Ascii.eqb c d); [apply IH | lia].
Qed.

Lemma streq_true a b :
  cstring a = true -> cstring b = true -> streq a b = true -> a = b.
Proof. unfold streq. intros Ha Hb H. apply Z.eqb_eq in H. now apply strcmp_eq. Qed.

(** ** [bsearch] *)

Lemma mid_bounds (l u : nat) : (l < u -> l <= (l + u) / 2 < u)%nat.
Proof.
  intros H. pose proof (Nat.div_mod_eq (l + u) 2).
  pose proof (Nat.mod_upper_bound (l + u) 2). lia.
Qed.

Section BsearchFacts.
Context {T : Type}.
Variable compar : T -> T -> Z.
Variable key : T.
Variable base : list T.

(** Whatever the table, an element that is returned sits in the searched
    range and compares equal to the key. *)
Lemma bsearch_loop_sound l u p :
  bsearch_loop compar key base l u = Some p ->
  exists i, (l <= i < u)%nat /\ nth_error base i = Some p /\ compar key p = 0.
Proof.
  funelim (bsearch_loop compar key base l u); try discriminate; intros Hp.
  - destruct (H _ Hp) as (i & Hi & Hn & Hc).
    exists i. pose proof (mid_bounds l u Hlu). repeat split; auto; lia.
  - destruct (H _ Hp) as (i & Hi & Hn & Hc).
    exists i. pose proof (mid_bounds l u Hlu). repeat split; auto; lia.
  - injection Hp as <-. exists ((l + u) / 2)%nat.
    pose proof (mid_bounds l u Hlu). repeat split; auto; lia.
Qed.

(** The table is strictly increasing for [compar], and the key is
    ordered against the table as any element equal to it. *)
Hypothesis base_sorted : forall i j p q,
  (i < j)%nat -> nth_error base i = Some p -> nth_error base j = Some q ->
  compar p q < 0.
Hypothesis key_below : forall p q, In p base -> In q base ->
  compar key q = 0 -> compar key p < 0 -> compar q p < 0.
Hypothesis key_above : forall p q, In p base -> In q base ->
  compar key q = 0 -> 0 < compar key p -> compar p q < 0.
Hypothesis key_same : forall p q, In p base -> In q base ->
  compar key p = 0 -> compar key q = 0 -> ~ compar p q < 0.
Hypothesis compar_asym : forall p q, compar p q < 0 -> ~ compar q p < 0.

(** On such a table the search cannot miss: an element that compares
    equal to the key and lies in the range is the one returned. *)
Lemma bsearch_loop_complete l u i q :
  (u <= List.length base)%nat ->
  (l <= i < u)%nat -> nth_error base i = Some q -> compar key q = 0 ->
  bsearch_loop compar key base l u = Some q.
Proof.
  funelim (bsearch_loop compar key base l u); intros Hu Hi Hq Hc;
    try pose proof (mid_bounds l u Hlu) as Hm.
  - lia.
  - apply nth_error_None in Heq. lia.
  - apply (H i); auto; [lia|]. split; [lia|].
    destruct (Nat.lt_ge_cases i ((l + u) / 2)) as [|Hge]; auto.
    exfalso. destruct (Nat.eq_dec i ((l + u) / 2)) as [->|Hne].
    + rewrite Heq0 in Hq. injection Hq as ->. lia.
    + apply (compar_asym q p); [apply key_below; eauto using nth_error_In|].
      apply (base_sorted ((l + u) / 2) i); auto. lia.
  - apply (H i); auto. split; [|lia].
    destruct (Nat.lt_ge_cases ((l + u) / 2) i) as [|Hge]; [lia|].
    exfalso. destruct (Nat.eq_dec i ((l + u) / 2)) as [->|Hne].
    + rewrite Heq1 in Hq. injection Hq as ->. lia.
    + apply (compar_asym p q); [apply key_above; eauto using nth_error_In|].
      apply (base_sorted i ((l + u) / 2)); auto. lia.
  - assert (compar key p = 0) as Hp by lia.
    destruct (Nat.lt_trichotomy i ((l + u) / 2)) as [Hlt|[->|Hgt]].
    + exfalso. apply (key_same q p); eauto using nth_error_In.
    + congruence.
    + exfalso. apply (key_same p q); eauto using nth_error_In.
Qed.
End BsearchFacts.

(** ** The category table *)

Lemma StronglySorted_nth {T} (R : T -> T -> Prop) (l : list T) :
  StronglySorted R l ->
  forall i j p q, (i < j)%nat ->
    nth_error l i = Some p -> nth_error l j = Some q -> R p q.
Proof.
  induction 1 as [|a l Hs IH Ha]; intros i j p q Hij Hp Hq.
  - destruct i; discriminate.
  - destruct j as [|j]; [lia|]. simpl in Hq.
    destruct i as [|i]; simpl in Hp.
    + injection Hp as <-. rewrite Forall_forall in Ha.
      eapply Ha, nth_error_In; eauto.
    + apply (IH i j); auto. lia.
Qed.

Lemma categories_sorted :
  StronglySorted (fun a b => category_compare a b < 0) categories.
Proof. unfold categories. repeat constructor. Qed.

Lemma categories_cstring :
  Forall (fun e => cstring (name e) = true) categories.
Proof. unfold categories. repeat constructor. Qed.

Lemma lookup_found e :
  In e categories ->
  bsearch category_compare {| name := name e; id := None |} categories
          (ARRAYSIZE categories) = Some e.
Proof.
  intros He. pose proof categories_cstring as Hcs.
  rewrite Forall_forall in Hcs.
  destruct (In_nth_error _ _ He) as [i Hi].
  assert (forall q, In q categories ->
            category_compare {| name := name e; id := None |} q = 0 ->
            name q = name e) as Heq.
  { intros q Hq Hc. symmetry. apply strcmp_eq; auto. }
  unfold bsearch.
  apply bsearch_loop_complete with (i := i); auto.
  - apply (StronglySorted_nth _ _ categories_sorted).
  - intros p q Hp Hq Hc Hlt. unfold category_compare in *.
    now rewrite (Heq q Hq Hc).
  - intros p q Hp Hq Hc Hlt. unfold category_compare in *.
    rewrite (Heq q Hq Hc). simpl in Hlt. now apply strcmp_antisym_gt.
  - intros p q Hp Hq Hcp Hcq. unfold category_compare.
    rewrite (Heq p Hp Hcp), (Heq q Hq Hcq), strcmp_refl. lia.
  - intros p q Hlt Hgt. unfold category_compare in *.
    apply strcmp_antisym in Hlt. lia.
  - split; [lia|]. apply nth_error_Some. congruence.
  - unfold category_compare. simpl. apply strcmp_refl.
Qed.

Lemma categories_have_ids :
  Forall (fun e => match id e with
                   | Some (String _ _) => True
                   | _ => False
                   end) categories.
Proof. unfold categories. repeat constructor. Qed.

Lemma lookup_sound cat e :
  cstring cat = true ->
  bsearch category_compare {| name := cat; id := None |} categories
          (ARRAYSIZE categories) = Some e ->
  In e categories /\ name e = cat.
Proof.
  intros Hc Hb. apply bsearch_loop_sound in Hb as (i & _ & Hn & Hz).
  apply nth_error_In in Hn. split; auto.
  pose proof categories_cstring as Hcs. rewrite Forall_forall in Hcs.
  symmetry. apply strcmp_eq; auto.
Qed.

(** ** The output monad *)

Lemma add_out_nil w : add_out w [] = w.
Proof. destruct w. unfold add_out. simpl. now rewrite app_nil_r. Qed.

Lemma add_out_app w a b : add_out (add_out w a) b = add_out w (a ++ b).
Proof. unfold add_out. simpl. now rewrite app_assoc. Qed.

Lemma emit_run e w : emit e w = Ok (tt, add_out w [e]).
Proof. reflexivity. Qed.

Lemma bind_run {X Y} (m : M X) (k : X -> M Y) w x w' :
  m w = Ok (x, w') -> bind m k w = k x w'.
Proof. unfold bind. now intros ->. Qed.

Lemma print_categories_run l : forall w,
  print_categories l w
  = Ok (tt, add_out w (map (fun n => Stderr (tab ++ n ++ nl)%string)
                           (map name l))).
Proof.
  induction l as [|c l IH]; intros w; simpl.
  - unfold ret. now rewrite add_out_nil.
  - unfold fprintf_stderr. rewrite (bind_run _ _ _ _ _ (emit_run _ w)).
    rewrite IH, add_out_app. reflexivity.
Qed.

Lemma usage_categories_run w :
  usage_categories w = Ok (tt, add_out w (category_listing categories)).
Proof.
  unfold usage_categories, fprintf_stderr.
  rewrite (bind_run _ _ _ _ _ (emit_run _ w)).
  rewrite print_categories_run, add_out_app. reflexivity.
Qed.

(** C8.  A name of the catalog validates to the non-empty id of its
    entry; a name that is not in the catalog is not found; and when
    [parseargs] meets such a name it prints, after the error line, the
    heading and every name of the table in table order (a list that is not
    empty) and returns [-EINVAL]. *)
Theorem category_validate_spec :
  (forall e, In e categories ->
     exists i, id e = Some i /\ i <> EmptyString /\
               category_validate (name e) = Some i) /\
  (forall cat, cstring cat = true -> ~ In cat (map name categories) ->
     category_validate cat = None) /\
  (forall C optarg rest w, category_validate optarg = None ->
     parseargs C ((opt_c, optarg) :: rest) w
     = Ok (- EINVAL,
           add_out (with_args (set_category None) w)
             (Stderr ("error: invalid category " ++ optarg ++ nl)%string
              :: category_listing categories))) /\
  map name categories <> [].
Proof.
  split; [|split; [|split]].
  - intros e He. pose proof categories_have_ids as Hid.
    rewrite Forall_forall in Hid. specialize (Hid e He).
    unfold category_validate. rewrite (lookup_found e He).
    destruct (id e) as [[|c i]|]; try contradiction.
    eexists; repeat split; auto. discriminate.
  - intros cat Hc Hn. unfold category_validate.
    destruct (bsearch _ _ _ _) as [e|] eqn:Hb; auto.
    apply lookup_sound in Hb as [He <-]; auto.
    exfalso. apply Hn. now apply in_map.
  - intros C optarg rest w Hv. cbn [parseargs].
    change (opt_c <? 0) with false. change (opt_c =? opt_C) with false.
    rewrite Z.eqb_refl. cbv iota.
    unfold modify_args, get_args, bind at 1 2. cbn [globals arg_category set_category].
    rewrite Hv. unfold fprintf_stderr.
    rewrite (bind_run _ _ _ _ _ (emit_run _ _)).
    rewrite (bind_run _ _ _ _ _ (usage_categories_run _)).
    unfold ret. rewrite add_out_app. reflexivity.
  - discriminate.
Qed.

Lemma category_validate_spec_witness :
  category_validate "kde" = Some "9" /\ category_validate "help" = None.
Proof.
  destruct category_validate_spec as (Hin & Hout & _).
  split.
  - destruct (Hin {| name := "kde"; id := Some "9" |}) as (i & Hi & _ & Hv).
    + simpl. tauto.
    + simpl in Hi, Hv. injection Hi as <-. exact Hv.
  - apply Hout; [reflexivity|].
    simpl. intros H. repeat destruct H as [H|H]; try discriminate H. exact H.
Defined.

Lemma sorted_names_NoDup (l : list category_t) :
  StronglySorted (fun a b => category_compare a b < 0) l ->
  NoDup (map name l).
Proof.
  induction 1 as [|a l Hs IH Ha]; simpl; constructor; auto.
  intros Hin. apply in_map_iff in Hin as (b & Hb & Hin).
  rewrite Forall_forall in Ha. specialize (Ha b Hin).
  unfold category_compare in Ha. rewrite Hb, strcmp_refl in Ha. lia.
Qed.

(** C9.  The table is strictly increasing for [category_compare], the
    [strcmp] order the lookup uses, so no name occurs twice; and for every
    queried C string the binary search returns an entry exactly when that
    entry is in the table under the queried name. *)
Theorem categories_sorted_unique :
  StronglySorted (fun a b => category_compare a b < 0) categories /\
  NoDup (map name categories) /\
  forall cat e, cstring cat = true ->
    (bsearch category_compare {| name := cat; id := None |} categories
             (ARRAYSIZE categories) = Some e
     <-> In e categories /\ name e = cat).
Proof.
  split; [exact categories_sorted|].
  split; [exact (sorted_names_NoDup _ categories_sorted)|].
  intros cat e Hc. split.
  - now apply lookup_sound.
  - intros [He <-]. now apply lookup_found.
Qed.

Lemma categories_sorted_unique_witness :
  bsearch category_compare {| name := "x11"; id := None |} categories
          (ARRAYSIZE categories) = Some {| name := "x11"; id := Some "17" |}.
Proof.
  destruct categories_sorted_unique as (_ & _ & H).
  apply (H "x11" {| name := "x11"; id := Some "17" |}); [reflexivity|].
  split; [simpl; tauto | reflexivity].
Defined.

(** ** Trimming *)

Lemma append_assoc a b c : ((a ++ b) ++ c = a ++ (b ++ c))%string.
Proof. induction a as [|x a IH]; simpl; [|rewrite IH]; reflexivity. Qed.

Lemma append_nil_r a : (a ++ "" = a)%string.
Proof. induction a as [|x a IH]; simpl; [|rewrite IH]; reflexivity. Qed.

Lemma skip_space_all w : all_space w = true -> skip_space w = EmptyString.
Proof.
  induction w as [|c w IH]; simpl; auto.
  intros H. apply andb_prop in H as [-> H]. auto.
Qed.

Lemma skip_space_app_space w s :
  all_space w = true -> skip_space (w ++ s) = skip_space s.
Proof.
  induction w as [|c w IH]; simpl; auto.
  intros H. apply andb_prop in H as [-> H]. auto.
Qed.

Lemma skip_space_head s c t : skip_space s = String c t -> isspace c = false.
Proof.
  induction s as [|x s IH]; simpl; [discriminate|].
  destruct (isspace x) eqn:E; auto. intros H. injection H as <- _. exact E.
Qed.

Lemma skip_space_idem s : skip_space (skip_space s) = skip_space s.
Proof.
  induction s as [|x s IH]; simpl; auto.
  destruct (isspace x) eqn:E; auto. simpl. now rewrite E.
Qed.

Lemma skip_space_app a b :
  skip_space a <> EmptyString -> skip_space (a ++ b) = (skip_space a ++ b)%string.
Proof.
  induction a as [|x a IH]; simpl; [congruence|].
  destruct (isspace x); auto.
Qed.

Lemma skip_space_app_sep a b :
  skip_space (a ++ String "=" b) = (skip_space a ++ String "=" b)%string.
Proof.
  induction a as [|x a IH]; simpl; auto.
  destruct (isspace x); auto.
Qed.

Lemma cut_all_space w : all_space w = true -> cut_trailing_space w = EmptyString.
Proof.
  induction w as [|c w IH]; simpl; auto.
  intros H. apply andb_prop in H as [-> H]. now rewrite IH.
Qed.

Lemma cut_app_space s w :
  all_space w = true -> cut_trailing_space (s ++ w) = cut_trailing_space s.
Proof.
  intros H. induction s as [|c s IH]; simpl.
  - now apply cut_all_space.
  - now rewrite IH.
Qed.

Lemma cut_head c s :
  isspace c = false -> exists t, cut_trailing_space (String c s) = String c t.
Proof.
  intros H. simpl. rewrite H. destruct (cut_trailing_space s); eauto.
Qed.

Lemma cut_app_sep x b :
  cut_trailing_space (x ++ String "=" b)
  = (x ++ String "=" (cut_trailing_space b))%string.
Proof.
  induction x as [|c x IH].
  - simpl. destruct (cut_trailing_space b); reflexivity.
  - cbn [append cut_trailing_space]. rewrite IH.
    destruct x; reflexivity.
Qed.

Lemma cut_idem s :
  cut_trailing_space (cut_trailing_space s) = cut_trailing_space s.
Proof.
  induction s as [|c s IH]; auto.
  cbn [cut_trailing_space]. destruct (cut_trailing_space s) as [|d t] eqn:E.
  - destruct (isspace c) eqn:Hc; auto. simpl. now rewrite Hc.
  - cbn [cut_trailing_space] in *. now rewrite IH.
Qed.

Lemma skip_cut_comm s :
  skip_space (cut_trailing_space s) = cut_trailing_space (skip_space s).
Proof.
  induction s as [|c s IH]; auto.
  cbn [skip_space]. destruct (isspace c) eqn:Hc.
  - rewrite <- IH. cbn [cut_trailing_space].
    destruct (cut_trailing_space s) as [|d t]; [now rewrite Hc|].
    cbn [skip_space]. now rewrite Hc.
  - destruct (cut_head c s Hc) as [t ->]. simpl. now rewrite Hc.
Qed.

Lemma trim_eq s : trim s = cut_trailing_space (skip_space s).
Proof.
  unfold trim, strtrim_buf. destruct s as [|c s]; auto.
  destruct (skip_space (String c s)); reflexivity.
Qed.

Lemma strtrim_buf_eq s : strtrim_buf s = (String.length (trim s), trim s).
Proof.
  unfold trim, strtrim_buf. destruct s as [|c s]; auto.
  destruct (skip_space (String c s)); reflexivity.
Qed.

Lemma trim_idem s : trim (trim s) = trim s.
Proof.
  rewrite !trim_eq, skip_cut_comm, skip_space_idem. apply cut_idem.
Qed.

Lemma trim_skip s : trim (skip_space s) = trim s.
Proof. now rewrite !trim_eq, skip_space_idem. Qed.

Lemma trim_cut s : trim (cut_trailing_space s) = trim s.
Proof. now rewrite !trim_eq, skip_cut_comm, cut_idem. Qed.

Lemma trim_pad w1 s w2 :
  all_space w1 = true -> all_space w2 = true ->
  trim (w1 ++ s ++ w2) = trim s.
Proof.
  intros H1 H2. rewrite !trim_eq, skip_space_app_space by auto.
  rewrite <- !skip_cut_comm. now rewrite cut_app_space.
Qed.

Lemma trim_all_space w : all_space w = true -> trim w = EmptyString.
Proof. intros H. rewrite trim_eq, skip_space_all; auto. Qed.

(** What [strtrim] leaves neither starts nor ends with white space. *)
Lemma trim_trimmed s :
  skip_space (trim s) = trim s /\ cut_trailing_space (trim s) = trim s.
Proof.
  rewrite trim_eq. split.
  - now rewrite skip_cut_comm, skip_space_idem.
  - apply cut_idem.
Qed.

(** ** Configuration lines *)

Lemma strsep_app a b :
  strchr a "=" = false -> strsep (a ++ String "=" b) "=" = (a, Some b).
Proof.
  induction a as [|c a IH]; intros H.
  - reflexivity.
  - cbn [strchr] in H. apply orb_false_elim in H as [Hc Ha].
    cbn [append strsep strchr]. rewrite Ascii.eqb_sym, Hc. simpl.
    now rewrite (IH Ha).
Qed.

Lemma strsep_none a : strchr a "=" = false -> strsep a "=" = (a, None).
Proof.
  induction a as [|c a IH]; intros H.
  - reflexivity.
  - cbn [strchr] in H. apply orb_false_elim in H as [Hc Ha].
    cbn [strsep strchr]. rewrite Ascii.eqb_sym, Hc. simpl.
    now rewrite (IH Ha).
Qed.

Lemma skip_space_no_sep a :
  strchr a "=" = false -> strchr (skip_space a) "=" = false.
Proof.
  induction a as [|c a IH]; auto. intros H. cbn [skip_space].
  destruct (isspace c); auto.
  cbn [strchr] in H. apply orb_false_elim in H as [_ Ha]. auto.
Qed.

Lemma all_space_no_sep w : all_space w = true -> strchr w "=" = false.
Proof.
  induction w as [|c w IH]; auto. cbn [all_space strchr]. intros H.
  apply andb_prop in H as [Hc Hw]. rewrite (IH Hw), orb_false_r.
  destruct (Ascii.eqb_spec c "="); auto. subst c. discriminate.
Qed.

Lemma strchr_app a b c : strchr (a ++ b) c = strchr a c || strchr b c.
Proof.
  induction a as [|x a IH]; auto. cbn [append strchr].
  now rewrite IH, orb_assoc.
Qed.

Lemma length_sep x c y : (String.length (x ++ String c y) =? 0)%nat = false.
Proof. destruct x; reflexivity. Qed.

Lemma trim_sep a b :
  trim (a ++ String "=" b)
  = (skip_space a ++ String "=" (cut_trailing_space b))%string.
Proof. now rewrite trim_eq, skip_space_app_sep, cut_app_sep. Qed.

Lemma hash_before_sep x r :
  starts_with_hash (x ++ String "=" r) = starts_with_hash (x ++ "=").
Proof. destruct x; reflexivity. Qed.

Lemma hash_pad w1 k w2 :
  all_space w1 = true -> all_space w2 = true ->
  starts_with_hash (skip_space (w1 ++ k ++ w2) ++ "=")
  = starts_with_hash (skip_space k ++ "=").
Proof.
  intros H1 H2. rewrite skip_space_app_space by auto.
  destruct (skip_space k) as [|c t] eqn:E.
  - assert (skip_space (k ++ w2) = EmptyString) as ->; auto.
    clear H1. induction k as [|x k IH]; simpl in *.
    + now apply skip_space_all.
    + destruct (isspace x); [auto | discriminate].
  - rewrite skip_space_app, E by congruence. reflexivity.
Qed.

(** A line with a separator: the entry handled is the trimmed text before
    the first [=] and the trimmed text after it, unless the line starts a
    comment. *)
Lemma config_line_keyval C a b :
  strchr a "=" = false ->
  config_line C (a ++ String "=" b)
  = if starts_with_hash (skip_space a ++ "=") then ret tt
    else config_entry C (trim a) (Some (trim b)).
Proof.
  intros Ha. unfold config_line.
  rewrite strtrim_buf_eq, trim_sep, length_sep, hash_before_sep.
  cbn [orb]. destruct (starts_with_hash _); auto.
  rewrite strsep_app by now apply skip_space_no_sep.
  unfold strtrim. rewrite !strtrim_buf_eq, trim_skip, trim_cut. reflexivity.
Qed.

(** A line without a separator: the value is NULL. *)
Lemma config_line_bare C a :
  strchr a "=" = false ->
  config_line C a
  = if (String.length (trim a) =? 0)%nat || starts_with_hash (trim a)
    then ret tt
    else config_entry C (trim a) None.
Proof.
  intros Ha. unfold config_line. rewrite strtrim_buf_eq.
  destruct (_ || _); auto.
  assert (strchr (trim a) "=" = false) as Ht.
  { rewrite trim_eq, <- skip_cut_comm. apply skip_space_no_sep.
    clear -Ha. induction a as [|c a IH]; auto.
    cbn [strchr] in Ha. apply orb_false_elim in Ha as [Hc Ha].
    cbn [cut_trailing_space]. specialize (IH Ha).
    destruct (cut_trailing_space a) as [|d t].
    - destruct (isspace c); auto. cbn [strchr]. now rewrite Hc.
    - cbn [strchr] in *. now rewrite Hc, IH. }
  rewrite (strsep_none _ Ht). unfold strtrim.
  rewrite strtrim_buf_eq, trim_idem. reflexivity.
Qed.

Lemma config_line_blank C line w :
  all_space line = true -> config_line C line w = Ok (tt, w).
Proof.
  intros H. unfold config_line.
  rewrite strtrim_buf_eq, trim_all_space by auto. reflexivity.
Qed.

Lemma config_line_comment C ws rest w :
  all_space ws = true -> config_line C (ws ++ String "#" rest) w = Ok (tt, w).
Proof.
  intros H. unfold config_line.
  rewrite strtrim_buf_eq, trim_eq, skip_space_app_space by auto.
  cbn [skip_space]. change (isspace "#") with false. cbv iota.
  destruct (cut_head "#" rest eq_refl) as [t ->].
  cbn [starts_with_hash]. rewrite Ascii.eqb_refl, orb_true_r. reflexivity.
Qed.

(** C7.  White space around the key and around the value of a
    configuration line does not count: the padded line is handled as the
    line without the padding, and the entry handled is made of the trimmed
    key and the trimmed value.  Blank lines and lines whose first character
    after the leading white space is [#] change nothing.  The lines
    [  User = alice  ] and [User=alice] both set the user name to
    [alice]. *)
Theorem config_line_trims (C : libc) :
  (forall w1 k w2 w3 v w4,
     all_space w1 = true -> all_space w2 = true ->
     all_space w3 = true -> all_space w4 = true ->
     strchr k "=" = false ->
     config_line C (w1 ++ k ++ w2 ++ "=" ++ w3 ++ v ++ w4)
     = config_line C (k ++ "=" ++ v)) /\
  (forall k v,
     strchr k "=" = false ->
     starts_with_hash (skip_space k ++ "=") = false ->
     config_line C (k ++ "=" ++ v) = config_entry C (trim k) (Some (trim v)) /\
     skip_space (trim k) = trim k /\ cut_trailing_space (trim k) = trim k /\
     skip_space (trim v) = trim v /\ cut_trailing_space (trim v) = trim v) /\
  (forall line w, all_space line = true -> config_line C line w = Ok (tt, w)) /\
  (forall ws rest w,
     all_space ws = true -> config_line C (ws ++ "#" ++ rest) w = Ok (tt, w)) /\
  (forall w, malloc_ok C "alice" = true ->
     config_line C "  User = alice  " w
     = Ok (tt, with_args (set_username (Some "alice")) w) /\
     config_line C "User=alice" w
     = Ok (tt, with_args (set_username (Some "alice")) w)).
Proof.
  repeat split.
  - intros w1 k w2 w3 v w4 H1 H2 H3 H4 Hk.
    replace (w1 ++ k ++ w2 ++ "=" ++ w3 ++ v ++ w4)%string
      with ((w1 ++ k ++ w2) ++ String "=" (w3 ++ v ++ w4))%string
      by (now rewrite !append_assoc).
    cbn [append]. rewrite !config_line_keyval; auto.
    + rewrite hash_pad, !trim_pad by auto. reflexivity.
    + rewrite !strchr_app, Hk, !all_space_no_sep by auto. reflexivity.
  - cbn [append]. rewrite config_line_keyval by auto.
    cbn [append] in H0. now rewrite H0.
  - apply trim_trimmed.
  - apply trim_trimmed.
  - apply trim_trimmed.
  - apply trim_trimmed.
  - intros. now apply config_line_blank.
  - intros. now apply config_line_comment.
  - unfold config_line. cbn. unfold bind, strdup, ret. cbn. now rewrite H.
  - unfold config_line. cbn. unfold bind, strdup, ret. cbn. now rewrite H.
Qed.

Lemma config_line_trims_witness :
  config_line (Demo.env (inl ENOENT)) "  User = alice  "
  = config_line (Demo.env (inl ENOENT)) "User=alice"
  /\ forall w,
       config_line (Demo.env (inl ENOENT)) "  User = alice  " w
       = Ok (tt, with_args (set_username (Some "alice")) w).
Proof.
  destruct (config_line_trims (Demo.env (inl ENOENT)))
    as (Hpad & _ & _ & _ & Halice).
  split.
  - apply (Hpad "  " "User" " " " " "alice" "  "); reflexivity.
  - intros w. apply Halice. reflexivity.
Defined.

(** C10.  A line that holds a key read with a value ([User], [Password]
    or [Cookies]) and no [=] leaves [value] NULL, and the handler passes
    it to [strdup] or [wordexp]: the run stops in a fault, for the line
    alone and for [main] on a file with such a line. *)
Theorem config_line_missing_value_faults (C : libc) (line : string) (w : world) :
  strchr line "=" = false ->
  trim line = "User" \/ trim line = "Password" \/ trim line = "Cookies" ->
  config_line C line w = Fault /\
  (forall rest, config_lines C (line :: rest) w = Fault) /\
  forall cmd,
    run (main (Demo.env (inr ["User"])) (A := Demo.client 0 0 (fun _ => 0)) cmd)
        initial_args = Fault.
Proof.
  intros Hsep Hkey.
  assert (config_line C line w = Fault) as Hf.
  { rewrite config_line_bare by auto.
    destruct Hkey as [-> | [-> | ->]]; reflexivity. }
  repeat split; auto.
  intros rest. cbn [config_lines]. unfold bind. now rewrite Hf.
Qed.

Lemma config_line_missing_value_faults_witness :
  config_line (Demo.env (inl ENOENT)) ("User" ++ nl)
              {| globals := initial_args; out := [] |} = Fault.
Proof.
  apply (config_line_missing_value_faults (Demo.env (inl ENOENT)) ("User" ++ nl)
           {| globals := initial_args; out := [] |}).
  - reflexivity.
  - left. reflexivity.
Defined.

(** ** Login *)

Section LoginFacts.
Variable C : libc.
Context {aur_t : Type} {A : AurClient aur_t}.

Lemma do_login_run (aur : aur_t) force w :
  do_login aur force w = Ok (aur_login aur force, add_out w [AurLogin force]).
Proof. reflexivity. Qed.

Lemma login_first_ok (aur aur1 : aur_t) r1 w :
  aur_login aur false = (r1, aur1) -> 0 <= r1 ->
  login aur w = Ok ((r1, aur1), add_out w [AurLogin false]).
Proof.
  intros H1 Hr. unfold login.
  rewrite (bind_run _ _ _ _ _ (do_login_run aur false w)), H1.
  destruct (Z.ltb_spec r1 0); [lia | reflexivity].
Qed.

Lemma login_expired (aur aur1 : aur_t) w :
  aur_login aur false = (- EKEYEXPIRED, aur1) ->
  login aur w = Ok (aur_login aur1 true,
                    add_out w [AurLogin false; expiry_warning; AurLogin true]).
Proof.
  intros H1. unfold login.
  rewrite (bind_run _ _ _ _ _ (do_login_run aur false w)), H1.
  change (- EKEYEXPIRED <? 0) with true.
  change (- EKEYEXPIRED =? - EKEYEXPIRED) with true. cbv iota.
  unfold fprintf_stderr. rewrite (bind_run _ _ _ _ _ (emit_run _ _)).
  rewrite do_login_run, !add_out_app. reflexivity.
Qed.

Lemma login_nokey (aur aur1 : aur_t) w :
  aur_login aur false = (- ENOKEY, aur1) ->
  login aur w = Ok (aur_login aur1 true,
                    add_out w [AurLogin false; AurLogin true]).
Proof.
  intros H1. unfold login.
  rewrite (bind_run _ _ _ _ _ (do_login_run aur false w)), H1.
  change (- ENOKEY <? 0) with true.
  change (- ENOKEY =? - EKEYEXPIRED) with false.
  change (- ENOKEY =? - ENOKEY) with true. cbv iota.
  rewrite do_login_run, !add_out_app. reflexivity.
Qed.

Lemma login_other (aur aur1 : aur_t) r1 w :
  aur_login aur false = (r1, aur1) ->
  r1 < 0 -> r1 <> - EKEYEXPIRED -> r1 <> - ENOKEY ->
  login aur w = Ok ((r1, aur1), add_out w [AurLogin false]).
Proof.
  intros H1 Hneg He Hn. unfold login.
  rewrite (bind_run _ _ _ _ _ (do_login_run aur false w)), H1.
  destruct (Z.ltb_spec r1 0); [|lia].
  destruct (Z.eqb_spec r1 (- EKEYEXPIRED)); [contradiction|].
  destruct (Z.eqb_spec r1 (- ENOKEY)); [contradiction|].
  reflexivity.
Qed.

(** Every run of [login] returns, after one of three traces. *)
Lemma login_run (aur : aur_t) w :
  exists x evs,
    login aur w = Ok (x, add_out w evs) /\
    (evs = [AurLogin false] \/
     evs = [AurLogin false; expiry_warning; AurLogin true] \/
     evs = [AurLogin false; AurLogin true]).
Proof.
  destruct (aur_login aur false) as [r1 aur1] eqn:H1.
  destruct (Z.eq_dec r1 (- EKEYEXPIRED)) as [->|He].
  { do 2 eexists. split; [eapply login_expired; eassumption|]. auto. }
  destruct (Z.eq_dec r1 (- ENOKEY)) as [->|Hn].
  { do 2 eexists. split; [eapply login_nokey; eassumption|]. auto. }
  destruct (Z_lt_dec r1 0).
  - do 2 eexists. split; [eapply login_other; eassumption|]. auto.
  - do 2 eexists. split; [apply login_first_ok; eauto; lia|]. auto.
Qed.

Lemma session_after_login (aur aur1 : aur_t) targets r w w1 :
  login aur w = Ok ((r, aur1), w1) ->
  session C aur targets w
  = if r <? 0 then make_login_error C r w1
    else bind (upload_loop C aur1 targets r) (fun x => finish (fst x)) w1.
Proof.
  intros H. unfold session. rewrite (bind_run _ _ _ _ _ H).
  destruct (r <? 0); auto.
  unfold bind. destruct (upload_loop C aur1 targets r w1) as [[[r' a'] w2]|]; auto.
Qed.
End LoginFacts.

(** ** Login errors *)

Lemma make_login_error_run C err w :
  exists msg, make_login_error C err w = Ok (EXIT_FAILURE, add_out w [Stderr msg]).
Proof.
  unfold make_login_error.
  destruct (- err =? EBADR); [|destruct (- err =? EACCES);
    [|destruct (- err =? EKEYEXPIRED); [|destruct (- err =? EKEYREJECTED)]]];
    eexists; reflexivity.
Qed.

(** ** The upload loop *)

Lemma first_failure_zero codes :
  first_failure codes = 0 <-> Forall (fun k => k = 0) codes.
Proof.
  induction codes as [|k codes IH]; simpl.
  - split; auto.
  - destruct (Z.eqb_spec k 0) as [->|Hk].
    + rewrite IH. split; [auto | now inversion 1].
    + split; [contradiction | now inversion 1].
Qed.

Section UploadFacts.
Variable C : libc.
Context {aur_t : Type} {A : AurClient aur_t}.

Lemma outcomes_targets (aur : aur_t) cat targets :
  map target_of (outcomes aur cat targets) = targets.
Proof.
  revert aur. induction targets as [|t rest IH]; intros aur; simpl; auto.
  destruct (aur_upload aur t cat) as [[k e] aur']. simpl. now rewrite IH.
Qed.

(** The loop returns for every list of targets: each target is uploaded
    and reported in turn, and [r] keeps its value if it is not 0 and
    otherwise takes the first code that is not 0. *)
Lemma upload_loop_run targets : forall (aur : aur_t) r w,
  let os := outcomes aur (arg_category (globals w)) targets in
  exists aur',
    upload_loop C aur targets r w
    = Ok ((if r =? 0 then first_failure (map code_of os) else r, aur'),
          add_out w (flat_map (report C (arg_category (globals w))) os)).
Proof.
  induction targets as [|t rest IH]; intros aur r w; cbn [upload_loop outcomes].
  - exists aur. unfold ret. cbn [map flat_map first_failure].
    rewrite add_out_nil. destruct (Z.eqb_spec r 0) as [->|]; reflexivity.
  - cbv [bind ret emit get_args do_upload printf fprintf_stderr].
    cbn [globals out].
    destruct (aur_upload aur t (arg_category (globals w))) as [[k e] aur1].
    cbn [code_of fst snd map flat_map report first_failure].
    destruct (Z.eqb_spec k 0) as [->|Hk]; cbn [globals out];
      match goal with
      | |- context [upload_loop C aur1 rest ?r' ?w'] =>
          destruct (IH aur1 r' w') as [aur' ->]
      end;
      exists aur'; unfold add_out; cbn [globals out app];
      rewrite <- !app_assoc; cbn [app].
    + reflexivity.
    + destruct (Z.eqb_spec r 0) as [->|Hr].
      * destruct (Z.eqb_spec k 0); [contradiction | reflexivity].
      * destruct (Z.eqb_spec r 0); [contradiction | reflexivity].
Qed.
End UploadFacts.

(** ** What the parts of [main] output *)

Lemma bind_inv {X Y} (m : M X) (k : X -> M Y) w y w' :
  bind m k w = Ok (y, w') ->
  exists x w1, m w = Ok (x, w1) /\ k x w1 = Ok (y, w').
Proof.
  unfold bind. destruct (m w) as [[x w1]|]; [|discriminate]. eauto.
Qed.

Section Outputs.
Variable P : event -> Prop.

Lemma outputs_ret {X} (x : X) : outputs P (ret x).
Proof.
  intros w y w' H. injection H as <- <-. exists []. now rewrite app_nil_r.
Qed.

Lemma outputs_fault {X} : outputs P (@fault X).
Proof. intros w y w' H. discriminate. Qed.

Lemma outputs_emit e : P e -> outputs P (emit e).
Proof. intros He w y w' H. injection H as <- <-. exists [e]. auto. Qed.

Lemma outputs_modify f : outputs P (modify_args f).
Proof.
  intros w y w' H. injection H as <- <-. exists []. simpl. now rewrite app_nil_r.
Qed.

Lemma outputs_get : outputs P get_args.
Proof.
  intros w y w' H. injection H as <- <-. exists []. now rewrite app_nil_r.
Qed.

Lemma outputs_bind {X Y} (m : M X) (k : X -> M Y) :
  outputs P m -> (forall x, outputs P (k x)) -> outputs P (bind m k).
Proof.
  intros Hm Hk w y w' H. apply bind_inv in H as (x & w1 & H1 & H2).
  destruct (Hm _ _ _ H1) as (e1 & E1 & F1).
  destruct (Hk _ _ _ _ H2) as (e2 & E2 & F2).
  exists (e1 ++ e2)%list. rewrite E2, E1, app_assoc. split; auto.
  now apply Forall_app.
Qed.
End Outputs.

Create HintDb outputs.

#[local] Hint Resolve outputs_ret outputs_fault outputs_modify outputs_get
  outputs_bind : outputs.

Lemma quiet_stderr s : quiet (Stderr s).
Proof. split; reflexivity. Qed.

#[local] Hint Resolve quiet_stderr : outputs.

Lemma outputs_stderr s : outputs quiet (fprintf_stderr s).
Proof. apply outputs_emit, quiet_stderr. Qed.

#[local] Hint Resolve outputs_stderr : outputs.

Section QuietParts.
Variable C : libc.

Lemma strdup_quiet v : outputs quiet (strdup C v).
Proof. destruct v; simpl; auto with outputs. Qed.

Lemma shell_expand_quiet v : outputs quiet (shell_expand C v).
Proof.
  destruct v as [i|]; simpl; auto with outputs.
  destruct (wordexp C i) as [r wv]. destruct (r <? 0); auto with outputs.
  apply strdup_quiet.
Qed.

Lemma config_entry_quiet key value : outputs quiet (config_entry C key value).
Proof.
  unfold config_entry.
  repeat match goal with
         | |- outputs _ (if ?b then _ else _) => destruct b
         end; auto with outputs;
    apply outputs_bind;
    auto using strdup_quiet, shell_expand_quiet;
    intros [v|]; auto with outputs.
Qed.

Lemma config_line_quiet line : outputs quiet (config_line C line).
Proof.
  unfold config_line.
  destruct (strtrim_buf line) as [len l]. destruct (_ || _); auto with outputs.
  destruct (strsep l "=") as [key value].
  destruct (strtrim_buf key) as [n k]. destruct (strtrim value) as [n' v].
  apply config_entry_quiet.
Qed.

Lemma config_lines_quiet lines : outputs quiet (config_lines C lines).
Proof.
  induction lines; simpl; auto using config_line_quiet with outputs.
Qed.

Lemma find_config_file_quiet : outputs quiet (find_config_file C).
Proof.
  unfold find_config_file, config_path_from.
  destruct (getenv C "XDG_CONFIG_HOME").
  - destruct (malloc_ok C _); auto with outputs.
  - destruct (getenv C "HOME"); auto with outputs.
    destruct (malloc_ok C _); auto with outputs.
Qed.

Lemma read_config_file_quiet : outputs quiet (read_config_file C).
Proof.
  unfold read_config_file. apply outputs_bind; [apply find_config_file_quiet|].
  intros [path|]; auto with outputs.
  destruct (fopen C path) as [e|lines].
  - destruct (negb _); auto with outputs.
  - auto using config_lines_quiet with outputs.
Qed.

Lemma print_categories_quiet l : outputs quiet (print_categories l).
Proof. induction l; simpl; auto with outputs. Qed.

Lemma usage_categories_quiet : outputs quiet usage_categories.
Proof. unfold usage_categories. auto using print_categories_quiet with outputs. Qed.

Lemma usage_quiet : outputs quiet (usage C).
Proof. unfold usage. auto with outputs. Qed.

Lemma parseargs_quiet opts : outputs quiet (parseargs C opts).
Proof.
  induction opts as [|[opt optarg] rest IH]; cbn [parseargs]; auto with outputs.
  repeat match goal with
         | |- outputs _ (if ?b then _ else _) => destruct b
         end; auto using usage_quiet with outputs.
  apply outputs_bind; auto with outputs. intros _.
  apply outputs_bind; auto with outputs. intros a.
  destruct (arg_category a); auto using usage_categories_quiet with outputs.
Qed.
End QuietParts.

(** ** Counting logins *)

Lemma count_logins_app a b :
  count_logins (a ++ b) = (count_logins a + count_logins b)%nat.
Proof. unfold count_logins. now rewrite filter_app, length_app. Qed.

Lemma count_logins_quiet evs : Forall quiet evs -> count_logins evs = 0%nat.
Proof.
  induction 1 as [|e evs [He _] _ IH]; auto.
  unfold count_logins in *. simpl. now rewrite He.
Qed.

Lemma count_logins_report C cat os :
  count_logins (flat_map (report C cat) os) = 0%nat.
Proof.
  induction os as [|[[t k] e] os IH]; auto.
  cbn [flat_map]. rewrite count_logins_app, IH.
  unfold report. destruct (k =? 0); reflexivity.
Qed.

Section SessionFacts.
Variable C : libc.
Context {aur_t : Type} {A : AurClient aur_t}.

(** Every run of the session returns, and logs in at most twice. *)
Lemma session_run (aur : aur_t) targets w :
  exists status evs,
    session C aur targets w = Ok (status, add_out w evs) /\
    (count_logins evs <= 2)%nat.
Proof.
  destruct (login_run aur w) as ([r aur1] & evs0 & Hl & Hev).
  assert (count_logins evs0 <= 2)%nat as Hc
    by (destruct Hev as [-> | [-> | ->]]; cbv; lia).
  rewrite (session_after_login C _ _ _ _ _ _ Hl).
  destruct (r <? 0).
  - destruct (make_login_error_run C r (add_out w evs0)) as [msg ->].
    rewrite add_out_app. do 2 eexists. split; [reflexivity|].
    rewrite count_logins_app. cbn. lia.
  - destruct (upload_loop_run C targets aur1 r (add_out w evs0)) as [aur2 Hu].
    rewrite (bind_run _ _ _ _ _ Hu). unfold finish.
    rewrite (bind_run _ _ _ _ _ (emit_run _ _)). unfold ret.
    rewrite !add_out_app. do 2 eexists. split; [reflexivity|].
    rewrite !count_logins_app, count_logins_report. cbn. lia.
Qed.

Lemma set_if_quiet {V} (v : option V) e f (aur : aur_t) :
  (forall x, quiet (e x)) -> outputs quiet (set_if v e f aur).
Proof.
  intros He. destruct v; simpl; auto with outputs.
  apply outputs_bind; auto with outputs. now apply outputs_emit.
Qed.

(** A run of [main] that returns logs in at most twice. *)
Lemma main_logins cmd w status w' :
  main C cmd w = Ok (status, w') ->
  exists evs, out w' = (out w ++ evs)%list /\ (count_logins evs <= 2)%nat.
Proof.
  assert (forall X (m : M X) w x w', outputs quiet m -> m w = Ok (x, w') ->
            exists evs, out w' = (out w ++ evs)%list /\ count_logins evs = 0%nat)
    as Hq.
  { intros X m w0 x w0' Hm H. destruct (Hm _ _ _ H) as (evs & E & F).
    exists evs. split; auto. now apply count_logins_quiet. }
  assert (forall a b c : list event, forall n,
            count_logins b = 0%nat -> (count_logins c <= n)%nat ->
            exists evs, ((a ++ b) ++ c = a ++ evs)%list /\
                        (count_logins evs <= n)%nat) as Hj.
  { intros a b c n Hb Hc. exists (b ++ c)%list.
    rewrite app_assoc, count_logins_app. split; auto. lia. }
  assert (count_logins [] <= 2)%nat as H0 by (cbv; lia).
  unfold main. intros H.
  apply bind_inv in H as (r & w1 & Hcfg & H).
  destruct (Hq _ _ _ _ _ (read_config_file_quiet C) Hcfg) as (e1 & E1 & C1).
  destruct (r <? 0).
  { injection H as <- <-. exists e1. split; auto. lia. }
  unfold main_after_config in H.
  apply bind_inv in H as (r2 & w2 & Hargs & H).
  destruct (Hq _ _ _ _ _ (parseargs_quiet C _) Hargs) as (e2 & E2 & C2).
  assert (exists evs, out w' = (out w2 ++ evs)%list /\ (count_logins evs <= 2)%nat)
    as (e3 & E3 & C3).
  { destruct (r2 <? 0).
    { injection H as <- <-. exists []. now rewrite app_nil_r. }
    apply bind_inv in H as (a & w3 & Hget & H). injection Hget as <- <-.
    apply bind_inv in H as (u & w4 & Hnew & H).
    injection Hnew as _ Hw4. subst w4.
    destruct (aur_new (arg_domain (globals w2)) true) as [r3 aur].
    destruct (r3 <? 0).
    { destruct (Hq _ _ _ _ _ (outputs_bind _ _ _ (outputs_stderr _)
          (fun _ => outputs_ret _ _)) H) as (e & E & Ce).
      rewrite E. simpl. apply Hj; [reflexivity | lia]. }
    assert (forall s, quiet (AurSetUsername s)) as Q1 by (split; reflexivity).
    assert (forall s, quiet (AurSetPassword s)) as Q2 by (split; reflexivity).
    assert (forall s, quiet (AurSetCookies s)) as Q3 by (split; reflexivity).
    assert (forall s, quiet (AurSetPersistCookies s)) as Q4 by (split; reflexivity).
    apply bind_inv in H as (a1 & v1 & S1 & H).
    destruct (Hq _ _ _ _ _ (set_if_quiet _ _ _ _ Q1) S1) as (f1 & F1 & G1).
    apply bind_inv in H as (a2 & v2 & S2 & H).
    destruct (Hq _ _ _ _ _ (set_if_quiet _ _ _ _ Q2) S2) as (f2 & F2 & G2).
    apply bind_inv in H as (a3 & v3 & S3 & H).
    destruct (Hq _ _ _ _ _ (set_if_quiet _ _ _ _ Q3) S3) as (f3 & F3 & G3).
    apply bind_inv in H as (a4 & v4 & S4 & H).
    destruct (Hq _ _ _ _ _ (set_if_quiet _ _ _ _ Q4) S4) as (f4 & F4 & G4).
    destruct (session_run a4 (operands cmd) v4) as (st & es & Hs & Cs).
    rewrite Hs in H. injection H as <- <-.
    cbn [add_out out]. rewrite F4, F3, F2, F1. cbn [out].
    exists ([AurNew (arg_domain (globals w2)) true] ++ f1 ++ f2 ++ f3 ++ f4 ++ es)%list.
    rewrite <- !app_assoc. split; auto.
    rewrite !count_logins_app, G1, G2, G3, G4. cbn. lia. }
  rewrite E3, E2, E1.
  destruct (Hj (out w) e1 e2 0%nat C1 ltac:(lia)) as (e12 & -> & C12).
  apply Hj; auto. lia.
Qed.
End SessionFacts.

Section SessionTheorems.
Variable C : libc.
Context {aur_t : Type} {A : AurClient aur_t}.

(** After a login that did not fail the session uploads every target and
    frees the client; the exit status tells whether [r] is 0 in the end. *)
Lemma session_uploads (aur aur1 : aur_t) targets r w w1 :
  login aur w = Ok ((r, aur1), w1) -> 0 <= r ->
  let cat := arg_category (globals w1) in
  let os := outcomes aur1 cat targets in
  session C aur targets w
  = Ok (if (if r =? 0 then first_failure (map code_of os) else r) =? 0
        then EXIT_SUCCESS else EXIT_FAILURE,
        add_out w1 (flat_map (report C cat) os ++ [AurFree])).
Proof.
  intros Hl Hr. cbv zeta. rewrite (session_after_login C _ _ _ _ _ _ Hl).
  destruct (Z.ltb_spec r 0); [lia|].
  destruct (upload_loop_run C targets aur1 r w1) as [aur2 Hu].
  rewrite (bind_run _ _ _ _ _ Hu). unfold finish.
  rewrite (bind_run _ _ _ _ _ (emit_run _ _)). unfold ret.
  now rewrite add_out_app.
Qed.

(** C1.  After a login that returned 0, every target is uploaded, in the
    order given, whatever the earlier uploads returned; each upload is
    followed by its report; the loop leaves in [r] the code of the first
    upload that failed (0 when none did); and the process ends with
    [EXIT_SUCCESS] when every upload returned 0 and with [EXIT_FAILURE]
    otherwise. *)
Theorem upload_batch_status (aur aur1 : aur_t) targets w w1 :
  login aur w = Ok ((0, aur1), w1) ->
  let cat := arg_category (globals w1) in
  let os := outcomes aur1 cat targets in
  map target_of os = targets /\
  (exists aur2,
     upload_loop C aur1 targets 0 w1
     = Ok ((first_failure (map code_of os), aur2),
           add_out w1 (flat_map (report C cat) os))) /\
  exists status,
    session C aur targets w
    = Ok (status, add_out w1 (flat_map (report C cat) os ++ [AurFree])) /\
    (Forall (fun o => code_of o = 0) os -> status = EXIT_SUCCESS) /\
    (~ Forall (fun o => code_of o = 0) os -> status = EXIT_FAILURE) /\
    EXIT_SUCCESS <> EXIT_FAILURE.
Proof.
  intros Hl cat os. split; [apply outcomes_targets|]. split.
  - destruct (upload_loop_run C targets aur1 0 w1) as [aur2 Hu]. eauto.
  - eexists. split; [apply (session_uploads _ _ _ _ _ _ Hl); lia|].
    fold cat. fold os. cbn [Z.eqb].
    assert (first_failure (map code_of os) = 0
            <-> Forall (fun o => code_of o = 0) os) as Hz.
    { rewrite first_failure_zero, Forall_map. reflexivity. }
    repeat split.
    + intros Hall. apply Hz in Hall. now rewrite Hall.
    + intros Hsome. destruct (Z.eqb_spec (first_failure (map code_of os)) 0);
        [exfalso; apply Hsome, Hz; assumption | reflexivity].
    + discriminate.
Qed.

(** C2.  The first login is made without the password.  When it returns
    [-EKEYEXPIRED] the warning is written and a second login, with the
    password, follows; when it returns [-ENOKEY] the second login follows
    with nothing written.  If that second login does not fail, these two
    logins are the only ones and the session goes on to the uploads. *)
Theorem login_falls_back_to_password (aur aur1 aur2 : aur_t) r1 r2 targets w :
  aur_login aur false = (r1, aur1) ->
  aur_login aur1 true = (r2, aur2) ->
  0 <= r2 ->
  (r1 = - EKEYEXPIRED ->
     login aur w
     = Ok ((r2, aur2), add_out w [AurLogin false; expiry_warning; AurLogin true]) /\
     count_logins [AurLogin false; expiry_warning; AurLogin true] = 2%nat /\
     exists status,
       session C aur targets w
       = Ok (status,
             add_out w ([AurLogin false; expiry_warning; AurLogin true]
                        ++ flat_map (report C (arg_category (globals w)))
                             (outcomes aur2 (arg_category (globals w)) targets)
                        ++ [AurFree]))) /\
  (r1 = - ENOKEY ->
     login aur w = Ok ((r2, aur2), add_out w [AurLogin false; AurLogin true]) /\
     count_logins [AurLogin false; AurLogin true] = 2%nat /\
     exists status,
       session C aur targets w
       = Ok (status,
             add_out w ([AurLogin false; AurLogin true]
                        ++ flat_map (report C (arg_category (globals w)))
                             (outcomes aur2 (arg_category (globals w)) targets)
                        ++ [AurFree]))).
Proof.
  intros H1 H2 Hr. split; intros ->.
  - pose proof (login_expired aur aur1 w H1) as Hl. rewrite H2 in Hl.
    repeat split; auto. eexists.
    rewrite (session_uploads _ _ _ _ _ _ Hl Hr), add_out_app. reflexivity.
  - pose proof (login_nokey aur aur1 w H1) as Hl. rewrite H2 in Hl.
    repeat split; auto. eexists.
    rewrite (session_uploads _ _ _ _ _ _ Hl Hr), add_out_app. reflexivity.
Qed.

(** C3.  When the first login fails with a code other than
    [-EKEYEXPIRED] and [-ENOKEY], no second login is made: the session
    writes the diagnostic and ends with [EXIT_FAILURE] after that single
    login.  And no run logs in more than twice: not a run of the session,
    which always returns, and not a run of [main]. *)
Theorem login_failure_is_terminal :
  (forall (aur aur1 : aur_t) r1 targets w,
     aur_login aur false = (r1, aur1) ->
     r1 < 0 -> r1 <> - EKEYEXPIRED -> r1 <> - ENOKEY ->
     login aur w = Ok ((r1, aur1), add_out w [AurLogin false]) /\
     count_logins [AurLogin false] = 1%nat /\
     exists msg,
       session C aur targets w
       = Ok (EXIT_FAILURE, add_out w [AurLogin false; Stderr msg])) /\
  (forall (aur : aur_t) targets w,
     exists status evs,
       session C aur targets w = Ok (status, add_out w evs) /\
       (count_logins evs <= 2)%nat) /\
  (forall cmd w status w',
     main C cmd w = Ok (status, w') ->
     exists evs, out w' = (out w ++ evs)%list /\ (count_logins evs <= 2)%nat).
Proof.
  split; [|split].
  - intros aur aur1 r1 targets w H1 Hneg He Hn.
    pose proof (login_other aur aur1 r1 w H1 Hneg He Hn) as Hl.
    repeat split; auto.
    rewrite (session_after_login C _ _ _ _ _ _ Hl).
    destruct (Z.ltb_spec r1 0); [|lia].
    destruct (make_login_error_run C r1 (add_out w [AurLogin false])) as [msg ->].
    exists msg. now rewrite add_out_app.
  - intros. apply session_run.
  - intros cmd w status w'. apply main_logins.
Qed.
End SessionTheorems.

Lemma upload_batch_status_witness :
  exists status,
    session (Demo.env (inl ENOENT))
            (A := Demo.client 0 0 (Demo.bad_is "b" (-5)))
            0%nat ["a"; "b"; "c"] {| globals := initial_args; out := [] |}
    = Ok (status,
          {| globals := initial_args;
             out := [ AurLogin false;
                      AurUpload "a" (Some "1");
                      Stdout ("success: uploaded a" ++ nl);
                      AurUpload "b" (Some "1");
                      Stderr ("failed to upload b: Input/output error" ++ nl);
                      AurUpload "c" (Some "1");
                      Stdout ("success: uploaded c" ++ nl);
                      AurFree ] |}) /\
    status = EXIT_FAILURE.
Proof.
  destruct (upload_batch_status (Demo.env (inl ENOENT))
              (A := Demo.client 0 0 (Demo.bad_is "b" (-5)))
              0%nat 1%nat ["a"; "b"; "c"]
              {| globals := initial_args; out := [] |}
              {| globals := initial_args; out := [AurLogin false] |}
              eq_refl)
    as (_ & _ & status & Hs & _ & Hfail & _).
  exists status. split; [exact Hs|].
  apply Hfail. intros Hall. vm_compute in Hall.
  inversion Hall as [|? ? _ Hb]. inversion Hb as [|? ? Hk _]. discriminate Hk.
Defined.

Lemma exit_status_is_not_the_failure_code :
  ~ exit_status_is_first_failure_code.
Proof.
  intros H.
  specialize (H (Demo.env (inl ENOENT)) nat
                (Demo.client 0 0 (Demo.bad_is "b" (-5)))
                0%nat 1%nat ["a"; "b"; "c"]
                {| globals := initial_args; out := [] |}
                {| globals := initial_args; out := [AurLogin false] |}
                _ EXIT_FAILURE eq_refl eq_refl).
  vm_compute in H. discriminate H.
Qed.

Lemma login_falls_back_to_password_witness :
  login (A := Demo.client (- EKEYEXPIRED) 0 (fun _ => 0)) 0%nat
        {| globals := initial_args; out := [] |}
  = Ok ((0, 2%nat),
        {| globals := initial_args;
           out := [AurLogin false; expiry_warning; AurLogin true] |}).
Proof.
  apply (login_falls_back_to_password (Demo.env (inl ENOENT))
           (A := Demo.client (- EKEYEXPIRED) 0 (fun _ => 0))
           0%nat 1%nat 2%nat (- EKEYEXPIRED) 0 []
           {| globals := initial_args; out := [] |}
           eq_refl eq_refl ltac:(lia)).
  reflexivity.
Defined.

Lemma login_failure_is_terminal_witness :
  login (A := Demo.client (- EACCES) 0 (fun _ => 0)) 0%nat
        {| globals := initial_args; out := [] |}
  = Ok ((- EACCES, 1%nat),
        {| globals := initial_args; out := [AurLogin false] |}).
Proof.
  apply (proj1 (login_failure_is_terminal (Demo.env (inl ENOENT))
                  (A := Demo.client (- EACCES) 0 (fun _ => 0)))
           0%nat 1%nat (- EACCES) []
           {| globals := initial_args; out := [] |}
           eq_refl).
  - reflexivity.
  - discriminate.
  - discriminate.
Defined.

(** C4.  The diagnostic written for a failed login is fixed by the code:
    [EBADR], [EACCES], [EKEYEXPIRED] and [EKEYREJECTED] each have their own
    sentence, every other code gets the general sentence with the text of
    [strerror].  The status returned is [EXIT_FAILURE], which is not 0, and
    a session whose login failed writes that diagnostic and ends without
    any upload. *)
Theorem login_error_messages (C : libc) :
  (forall w, make_login_error C (- EBADR) w
     = Ok (EXIT_FAILURE,
           add_out w [Stderr ("error: insufficient credentials provided to login."
                              ++ nl)])) /\
  (forall w, make_login_error C (- EACCES) w
     = Ok (EXIT_FAILURE,
           add_out w [Stderr ("error: bad username or password." ++ nl)])) /\
  (forall w, make_login_error C (- EKEYEXPIRED) w
     = Ok (EXIT_FAILURE,
           add_out w [Stderr ("error: required login cookie has expired." ++ nl)])) /\
  (forall w, make_login_error C (- EKEYREJECTED) w
     = Ok (EXIT_FAILURE,
           add_out w [Stderr ("error: login cookie not accepted." ++ nl)])) /\
  (forall err w,
     - err <> EBADR -> - err <> EACCES ->
     - err <> EKEYEXPIRED -> - err <> EKEYREJECTED ->
     make_login_error C err w
     = Ok (EXIT_FAILURE,
           add_out w [Stderr ("error: failed to login to AUR: "
                              ++ strerror C (- err) ++ nl)])) /\
  EXIT_FAILURE <> 0 /\
  (forall aur_t (A : AurClient aur_t) (aur aur1 : aur_t) r targets w w1,
     login aur w = Ok ((r, aur1), w1) -> r < 0 ->
     session C aur targets w = make_login_error C r w1 /\
     exists evs,
       session C aur targets w = Ok (EXIT_FAILURE, add_out w evs) /\
       Forall (fun e => is_upload e = false) evs).
Proof.
  repeat split; try reflexivity; try discriminate.
  - intros err w H1 H2 H3 H4. unfold make_login_error.
    destruct (Z.eqb_spec (- err) EBADR); [contradiction|].
    destruct (Z.eqb_spec (- err) EACCES); [contradiction|].
    destruct (Z.eqb_spec (- err) EKEYEXPIRED); [contradiction|].
    destruct (Z.eqb_spec (- err) EKEYREJECTED); [contradiction|].
    reflexivity.
  - rewrite (session_after_login C _ _ _ _ _ _ H).
    destruct (Z.ltb_spec r 0); [reflexivity | lia].
  - rewrite (session_after_login C _ _ _ _ _ _ H).
    destruct (Z.ltb_spec r 0); [|lia].
    destruct (login_run aur w) as (x & evs0 & Hl & Hev).
    rewrite H in Hl. injection Hl as _ ->.
    destruct (make_login_error_run C r (add_out w evs0)) as [msg ->].
    exists (evs0 ++ [Stderr msg])%list. rewrite add_out_app. split; auto.
    destruct Hev as [-> | [-> | ->]]; repeat constructor.
Qed.

Lemma login_error_messages_witness :
  session (Demo.env (inl ENOENT)) (A := Demo.client (- EACCES) 0 (fun _ => 0))
          0%nat ["a"] {| globals := initial_args; out := [] |}
  = Ok (EXIT_FAILURE,
        {| globals := initial_args;
           out := [AurLogin false;
                   Stderr ("error: bad username or password." ++ nl)] |}).
Proof.
  destruct (login_error_messages (Demo.env (inl ENOENT)))
    as (_ & _ & _ & _ & _ & _ & H).
  destruct (H nat (Demo.client (- EACCES) 0 (fun _ => 0)) 0%nat 1%nat (- EACCES)
              ["a"] {| globals := initial_args; out := [] |}
              {| globals := initial_args; out := [AurLogin false] |}
              eq_refl ltac:(reflexivity)) as [Hs _].
  rewrite Hs. reflexivity.
Defined.

(** C6.  When the configuration file cannot be opened because it does
    not exist, [read_config_file] returns 0 with nothing written and
    nothing set, and [main] goes on with the command line.  When it cannot
    be opened for any other reason, the error is written, the negated
    [errno] is returned, and [main] ends with [EXIT_FAILURE] before the
    client is created.  The only test between the two is
    [errno != ENOENT]. *)
Theorem config_file_missing_or_unreadable
    (C : libc) {aur_t : Type} {A : AurClient aur_t}
    (path : string) (cmd : cmdline) (w : world) :
  find_config_file C w = Ok (Some path, w) ->
  (fopen C path = inl ENOENT ->
     read_config_file C w = Ok (0, w) /\
     main C cmd w = main_after_config C cmd w) /\
  (forall errno,
     fopen C path = inl errno -> 0 < errno -> errno <> ENOENT ->
     read_config_file C w
     = Ok (- errno,
           add_out w [Stderr ("error: failed to open " ++ path ++ ": "
                              ++ strerror C errno ++ nl)]) /\
     main C cmd w
     = Ok (EXIT_FAILURE,
           add_out w [Stderr ("error: failed to open " ++ path ++ ": "
                              ++ strerror C errno ++ nl)])).
Proof.
  intros Hpath. split.
  - intros Hopen.
    assert (read_config_file C w = Ok (0, w)) as Hr.
    { unfold read_config_file. rewrite (bind_run _ _ _ _ _ Hpath), Hopen.
      reflexivity. }
    split; auto. unfold main. now rewrite (bind_run _ _ _ _ _ Hr).
  - intros errno Hopen Hpos Hne.
    assert (read_config_file C w
            = Ok (- errno,
                  add_out w [Stderr ("error: failed to open " ++ path ++ ": "
                                     ++ strerror C errno ++ nl)])) as Hr.
    { unfold read_config_file. rewrite (bind_run _ _ _ _ _ Hpath), Hopen.
      destruct (Z.eqb_spec errno ENOENT); [contradiction|]. reflexivity. }
    split; auto. unfold main. rewrite (bind_run _ _ _ _ _ Hr).
    destruct (Z.ltb_spec (- errno) 0); [reflexivity | lia].
Qed.

Lemma config_file_missing_or_unreadable_witness :
  main (Demo.env (inl EACCES)) (A := Demo.client 0 0 (fun _ => 0))
       {| getopt_seq := []; operands := ["a"] |}
       {| globals := initial_args; out := [] |}
  = Ok (EXIT_FAILURE,
        {| globals := initial_args;
           out := [Stderr ("error: failed to open /home/u/.config/burp/burp.conf: "
                           ++ "Permission denied" ++ nl)] |}).
Proof.
  apply (proj2 (config_file_missing_or_unreadable (Demo.env (inl EACCES))
                  (A := Demo.client 0 0 (fun _ => 0))
                  "/home/u/.config/burp/burp.conf"
                  {| getopt_seq := []; operands := ["a"] |}
                  {| globals := initial_args; out := [] |}
                  eq_refl)
           EACCES eq_refl ltac:(reflexivity) ltac:(discriminate)).
Defined.

(** ** Precedence of the command line over the configuration file *)

Lemma parseargs_accepted C opts :
  forallb accepted_option opts = true ->
  forall w, exists a,
    parseargs C opts w = Ok (0, {| globals := a; out := out w |}) /\
    arg_username a
    = match last_optarg opt_u opts with
      | Some x => Some x
      | None => arg_username (globals w)
      end /\
    arg_password a
    = match last_optarg opt_p opts with
      | Some x => Some x
      | None => arg_password (globals w)
      end /\
    arg_cookiefile a
    = match last_optarg opt_C opts with
      | Some x => Some x
      | None => arg_cookiefile (globals w)
      end /\
    arg_domain a
    = match last_optarg opt_domain opts with
      | Some x => x
      | None => arg_domain (globals w)
      end /\
    arg_category a
    = match last_optarg opt_c opts with
      | Some n => category_validate n
      | None => arg_category (globals w)
      end /\
    arg_persist_cookies a
    = existsb (fun p => fst p =? opt_k) opts || arg_persist_cookies (globals w).
Proof.
  induction opts as [|[o arg] rest IH]; intros Hacc w.
  - exists (globals w). destruct w. repeat split. 
  - cbn [forallb] in Hacc. apply andb_prop in Hacc as [Ho Hrest].
    specialize (IH Hrest). unfold accepted_option in Ho.
    repeat (apply orb_prop in Ho as [Ho|Ho]).
    all: try (apply andb_prop in Ho as [Ho Hcat]).
    all: apply Z.eqb_eq in Ho; subst o.
    all: cbn [parseargs last_optarg existsb fst].
    all: repeat match goal with
         | |- context [?a <? ?b] => change (a <? b) with false
         | |- context [?a =? ?b] => 
             first [change (a =? b) with false | change (a =? b) with true]
         end; cbv iota.
    all: cbv [bind modify_args get_args]; cbn [globals out arg_category set_category].
    all: try (destruct (category_validate arg) as [i|] eqn:Hv; [|discriminate]).
    all: match goal with
         | |- context [parseargs _ _ ?w'] =>
             destruct (IH w') as (a & -> & Hu & Hp & Hc & Hd & Hg & Hk)
         end.
    all: exists a;
      cbn [globals arg_username arg_password arg_cookiefile arg_domain
           arg_category arg_persist_cookies set_username set_password
           set_cookiefile set_domain set_category set_persist_cookies]
        in Hu, Hp, Hc, Hd, Hg, Hk.
    all: rewrite Hu, Hp, Hc, Hd, Hg, Hk; cbn [out].
    all: repeat split;
           repeat match goal with
                  | |- context [last_optarg ?o ?l] => destruct (last_optarg o l)
                  | |- context [existsb ?f ?l] => destruct (existsb f l)
                  end; auto.
Qed.

Lemma config_line_entry C line :
  config_line C line
  = match line_entry line with
    | None => ret tt
    | Some (k, v) => config_entry C k v
    end.
Proof.
  unfold config_line, line_entry. rewrite strtrim_buf_eq.
  destruct (_ || _); auto.
  destruct (strsep (trim line) "=") as [key value].
  rewrite strtrim_buf_eq. destruct value as [v|]; cbn [strtrim option_map];
    [rewrite strtrim_buf_eq|]; reflexivity.
Qed.

Lemma strcmp_cons c k d s :
  strcmp (String c k) (String d s) = 0 -> c = d /\ strcmp k s = 0.
Proof.
  cbn [strcmp]. destruct (Ascii.eqb_spec c d) as [->|Hne]; auto.
  intros H. exfalso. apply Hne, uchar_inj. lia.
Qed.

(** The four keys exclude one another. *)
Lemma config_keys_apart k :
  (streq k "Password" = true -> streq k "User" = false) /\
  (streq k "Cookies" = true ->
     streq k "User" = false /\ streq k "Password" = false) /\
  (streq k "Persist" = true ->
     streq k "User" = false /\ streq k "Password" = false /\
     streq k "Cookies" = false).
Proof.
  unfold streq. split; [|split]; intros H; apply Z.eqb_eq in H;
    (destruct k as [|c k]; [discriminate H|]);
    apply strcmp_cons in H as [-> H1]; repeat split; try reflexivity.
  destruct k as [|c k]; [discriminate H1|].
  apply strcmp_cons in H1 as [-> H2]. reflexivity.
Qed.

Section ConfigFacts.
Variable C : libc.
Hypothesis malloc_succeeds : forall s, malloc_ok C s = true.


End ConfigFacts.

(** * Further properties *)

(** ** [strtrim] *)

Lemma skip_space_split s :
  exists w, all_space w = true /\ s = (w ++ skip_space s)%string.
Proof.
  induction s as [|c s (w & Hw & E)].
  - exists EmptyString. auto.
  - cbn [skip_space]. destruct (isspace c) eqn:Hc.
    + exists (String c w). cbn [all_space append].
      split; [now rewrite Hc, Hw | now rewrite <- E].
    + exists EmptyString. auto.
Qed.

Lemma cut_trailing_space_split s :
  exists w, all_space w = true /\ s = (cut_trailing_space s ++ w)%string.
Proof.
  induction s as [|c s (w & Hw & E)].
  - exists EmptyString. auto.
  - cbn [cut_trailing_space]. destruct (cut_trailing_space s) as [|d t] eqn:Hs.
    + destruct (isspace c) eqn:Hc.
      * exists (String c w). cbn [all_space append] in *.
        split; [now rewrite Hc, Hw | now rewrite E].
      * exists w. cbn [append] in *. split; [auto | now rewrite <- E].
    + exists w. cbn [append] in *. split; [auto | now rewrite <- E].
Qed.

Lemma cut_trailing_space_last s : forall t c,
  cut_trailing_space s = (t ++ String c EmptyString)%string -> isspace c = false.
Proof.
  induction s as [|x s IH]; intros t c; cbn [cut_trailing_space].
  - destruct t; discriminate.
  - destruct (cut_trailing_space s) as [|d u].
    + destruct (isspace x) eqn:Hx; [destruct t; discriminate|].
      destruct t as [|y t]; cbn [append]; intros H.
      * injection H as <-. exact Hx.
      * injection H as _ H. destruct t; discriminate.
    + destruct t as [|y t]; cbn [append]; intros H; [discriminate|].
      injection H as _ H. eapply IH. exact H.
Qed.

Lemma length_append a b :
  String.length (a ++ b) = (String.length a + String.length b)%nat.
Proof. induction a as [|c a IH]; simpl; auto. Qed.

Lemma all_space_app a b :
  all_space (a ++ b) = all_space a && all_space b.
Proof.
  induction a as [|c a IH]; auto. cbn [append all_space].
  now rewrite IH, andb_assoc.
Qed.

(** X1.  [strtrim] removes the white space at both ends of the buffer and
    nothing else: the buffer was the new contents between two runs of
    white space; the new contents neither start nor end with white space;
    the value returned is their length, which is 0 exactly when the
    buffer held white space only; and a NULL argument gives 0. *)
Theorem strtrim_strips_both_ends (s : string) :
  (exists w1 w2,
     all_space w1 = true /\ all_space w2 = true /\
     s = (w1 ++ trim s ++ w2)%string) /\
  strtrim (Some s) = (String.length (trim s), Some (trim s)) /\
  (forall c t, trim s = String c t -> isspace c = false) /\
  (forall t c, trim s = (t ++ String c EmptyString)%string -> isspace c = false) /\
  (String.length (trim s) <= String.length s)%nat /\
  (fst (strtrim (Some s)) = 0%nat <-> all_space s = true) /\
  strtrim None = (0%nat, None).
Proof.
  assert (exists w1 w2,
            all_space w1 = true /\ all_space w2 = true /\
            s = (w1 ++ trim s ++ w2)%string) as Hsplit.
  { destruct (skip_space_split s) as (w1 & H1 & E1).
    destruct (cut_trailing_space_split (skip_space s)) as (w2 & H2 & E2).
    exists w1, w2. rewrite trim_eq, <- E2. auto. }
  split; [exact Hsplit|].
  assert (strtrim (Some s) = (String.length (trim s), Some (trim s))) as Hrun
    by (unfold strtrim; now rewrite strtrim_buf_eq).
  repeat split.
  - exact Hrun.
  - intros c t H. eapply skip_space_head.
    rewrite (proj1 (trim_trimmed s)). exact H.
  - intros t c H. rewrite trim_eq in H. eapply cut_trailing_space_last; eauto.
  - destruct Hsplit as (w1 & w2 & _ & _ & E).
    rewrite E at 2. rewrite !length_append. lia.
  - rewrite Hrun. cbn [fst]. intros H0.
    destruct Hsplit as (w1 & w2 & H1 & H2 & E).
    destruct (trim s); [|discriminate].
    rewrite E, !all_space_app, H1, H2. reflexivity.
  - intros Hall. rewrite Hrun. cbn [fst]. now rewrite trim_all_space.
Qed.

(** ** Where the configuration file is looked for *)

(** X2.  The configuration file is [burp/burp.conf] under
    [XDG_CONFIG_HOME] when that variable is set, whatever [HOME] is, and
    [.config/burp/burp.conf] under [HOME] otherwise.  With neither variable
    set, [read_config_file] writes a warning and returns 0.  When the path
    cannot be allocated it writes the allocation error and the warning and
    returns 0 as well, without trying [HOME]. *)
Theorem config_file_location (C : libc) (w : world) :
  (forall d,
     getenv C "XDG_CONFIG_HOME" = Some d ->
     malloc_ok C (d ++ "/burp/burp.conf") = true ->
     find_config_file C w = Ok (Some (d ++ "/burp/burp.conf")%string, w)) /\
  (forall h,
     getenv C "XDG_CONFIG_HOME" = None -> getenv C "HOME" = Some h ->
     malloc_ok C (h ++ "/.config/burp/burp.conf") = true ->
     find_config_file C w = Ok (Some (h ++ "/.config/burp/burp.conf")%string, w)) /\
  (getenv C "XDG_CONFIG_HOME" = None -> getenv C "HOME" = None ->
     read_config_file C w
     = Ok (0, add_out w
                [Stderr ("warning: unable to determine location of config file. "
                         ++ "Skipping." ++ nl)])) /\
  (forall d,
     getenv C "XDG_CONFIG_HOME" = Some d ->
     malloc_ok C (d ++ "/burp/burp.conf") = false ->
     read_config_file C w
     = Ok (0, add_out w
                [Stderr ("error: failed to allocate memory" ++ nl);
                 Stderr ("warning: unable to determine location of config file. "
                         ++ "Skipping." ++ nl)])).
Proof.
  unfold read_config_file, find_config_file, config_path_from.
  repeat split.
  - intros d -> Hm. now rewrite Hm.
  - intros h -> -> Hm. now rewrite Hm.
  - intros -> ->. reflexivity.
  - intros d -> Hm. rewrite Hm. cbv [bind fprintf_stderr emit ret add_out].
    cbn [globals out]. now rewrite <- app_assoc.
Qed.

Lemma config_file_location_witness :
  find_config_file (Demo.env (inl ENOENT))
                   {| globals := initial_args; out := [] |}
  = Ok (Some "/home/u/.config/burp/burp.conf",
        {| globals := initial_args; out := [] |}).
Proof.
  apply (proj1 (proj2 (config_file_location (Demo.env (inl ENOENT))
                         {| globals := initial_args; out := [] |}))
           "/home/u"); reflexivity.
Defined.

(** ** When the configuration reader faults *)

Lemma config_entry_faults C k v w :
  (entry_faults C k v = true -> config_entry C k v w = Fault) /\
  (entry_faults C k v = false -> exists w', config_entry C k v w = Ok (tt, w')).
Proof.
  unfold entry_faults, config_entry.
  destruct (streq k "User"); cbn [orb].
  { destruct v as [s|]; split; try discriminate; auto.
    intros _. cbv [bind strdup ret]. destruct (malloc_ok C s); eexists; reflexivity. }
  destruct (streq k "Password").
  { destruct v as [s|]; split; try discriminate; auto.
    intros _. cbv [bind strdup ret]. destruct (malloc_ok C s); eexists; reflexivity. }
  destruct (streq k "Cookies").
  { destruct v as [s|]; [|split; [auto | discriminate]].
    cbv [bind shell_expand]. destruct (wordexp C s) as [r wv].
    destruct (r <? 0); cbn [negb andb].
    - split; [discriminate|]. intros _. eexists; reflexivity.
    - destruct wv as [|x wv]; cbn [is_nil hd_error strdup].
      + split; [auto | discriminate].
      + split; [discriminate|]. intros _. cbv [ret].
        destruct (malloc_ok C x); eexists; reflexivity. }
  split; [discriminate|]. intros _.
  destruct (streq k "Persist"); eexists; reflexivity.
Qed.

Lemma config_line_faults C line w :
  (line_faults C line = true -> config_line C line w = Fault) /\
  (line_faults C line = false -> exists w', config_line C line w = Ok (tt, w')).
Proof.
  unfold line_faults. rewrite config_line_entry.
  destruct (line_entry line) as [[k v]|]; [apply config_entry_faults|].
  split; [discriminate|]. intros _. eexists; reflexivity.
Qed.

(** X3.  Reading the lines of a configuration file stops in a fault
    exactly when one of them holds [User], [Password] or [Cookies] without
    a value, or a [Cookies] value that [wordexp] accepts while leaving no
    word.  On every other file the reader returns, and [read_config_file]
    returns 0. *)
Theorem config_reader_faults_exactly (C : libc) (lines : list string) :
  (existsb (line_faults C) lines = true ->
     forall w, config_lines C lines w = Fault) /\
  (existsb (line_faults C) lines = false ->
     forall w, exists w', config_lines C lines w = Ok (tt, w')) /\
  (forall path w,
     find_config_file C w = Ok (Some path, w) -> fopen C path = inr lines ->
     (existsb (line_faults C) lines = true -> read_config_file C w = Fault) /\
     (existsb (line_faults C) lines = false ->
        exists w', read_config_file C w = Ok (0, w'))).
Proof.
  assert ((existsb (line_faults C) lines = true ->
             forall w, config_lines C lines w = Fault) /\
          (existsb (line_faults C) lines = false ->
             forall w, exists w', config_lines C lines w = Ok (tt, w')))
    as [Ht Hf].
  { induction lines as [|line rest [IHt IHf]]; cbn [existsb config_lines].
    - split; [discriminate|]. intros _ w. eexists; reflexivity.
    - split.
      + intros H w. unfold bind.
        destruct (line_faults C line) eqn:E.
        * now rewrite (proj1 (config_line_faults C line w) E).
        * destruct (proj2 (config_line_faults C line w) E) as [w1 ->].
          now apply IHt.
      + intros H w. apply orb_false_elim in H as [E Hr].
        destruct (proj2 (config_line_faults C line w) E) as [w1 Hl].
        rewrite (bind_run _ _ _ _ _ Hl). now apply IHf. }
  split; [exact Ht|]. split; [exact Hf|].
  intros path w Hpath Hopen. unfold read_config_file.
  rewrite (bind_run _ _ _ _ _ Hpath), Hopen. split; intros H.
  - unfold bind. now rewrite Ht.
  - destruct (Hf H w) as [w' Hl]. rewrite (bind_run _ _ _ _ _ Hl).
    eexists; reflexivity.
Qed.

Lemma config_reader_faults_exactly_witness :
  (exists w', config_lines (Demo.env (inl ENOENT))
                ["# burp"; "User = alice"; "Persist"; "Domain"]
                {| globals := initial_args; out := [] |} = Ok (tt, w')) /\
  config_lines (Demo.env (inl ENOENT)) ["User = alice"; "Password"]
               {| globals := initial_args; out := [] |} = Fault.
Proof.
  split.
  - apply (proj1 (proj2 (config_reader_faults_exactly (Demo.env (inl ENOENT))
                           ["# burp"; "User = alice"; "Persist"; "Domain"]))).
    reflexivity.
  - apply (proj1 (config_reader_faults_exactly (Demo.env (inl ENOENT))
                    ["User = alice"; "Password"])).
    reflexivity.
Defined.

(** ** Invariants of the [arg_*] variables *)

Section Keeps.
Variable I : args -> Prop.

Lemma keeps_ret {X} (x : X) : keeps I (ret x).
Proof. intros w y w' H. injection H as <- <-. auto. Qed.

Lemma keeps_fault {X} : keeps I (@fault X).
Proof. intros w y w' H. discriminate. Qed.

Lemma keeps_emit e : keeps I (emit e).
Proof. intros w y w' H. injection H as <- <-. auto. Qed.

Lemma keeps_get : keeps I get_args.
Proof. intros w y w' H. injection H as <- <-. auto. Qed.

Lemma keeps_modify f : (forall a, I a -> I (f a)) -> keeps I (modify_args f).
Proof. intros Hf w y w' H. injection H as <- <-. cbn. auto. Qed.

Lemma keeps_bind {X Y} (m : M X) (k : X -> M Y) :
  keeps I m -> (forall x, keeps I (k x)) -> keeps I (bind m k).
Proof.
  intros Hm Hk w y w' H Hi. apply bind_inv in H as (x & w1 & H1 & H2).
  eapply Hk; eauto.
Qed.

Hypothesis I_username : forall v a, I a -> I (set_username v a).
Hypothesis I_password : forall v a, I a -> I (set_password v a).
Hypothesis I_cookiefile : forall v a, I a -> I (set_cookiefile v a).
Hypothesis I_persist : forall a, I a -> I (set_persist_cookies true a).

Lemma config_entry_keeps C k v : keeps I (config_entry C k v).
Proof.
  unfold config_entry, fprintf_stderr.
  repeat match goal with
         | |- keeps _ (if ?b then _ else _) => destruct b
         end;
    auto using keeps_ret, keeps_modify;
    apply keeps_bind;
    try (intros [x|]; auto using keeps_emit, keeps_modify).
  - destruct v; cbn; auto using keeps_ret, keeps_fault.
  - destruct v; cbn; auto using keeps_ret, keeps_fault.
  - destruct v as [s|]; cbn; auto using keeps_fault.
    destruct (wordexp C s) as [r wv]. destruct (r <? 0); auto using keeps_ret.
    destruct (hd_error wv); cbn; auto using keeps_ret, keeps_fault.
Qed.

Lemma config_lines_keeps C lines : keeps I (config_lines C lines).
Proof.
  induction lines as [|line rest IH]; cbn [config_lines];
    auto using keeps_ret.
  apply keeps_bind; auto. rewrite config_line_entry.
  destruct (line_entry line) as [[k v]|];
    auto using keeps_ret, config_entry_keeps.
Qed.

Lemma read_config_file_keeps C : keeps I (read_config_file C).
Proof.
  unfold read_config_file, find_config_file, config_path_from, fprintf_stderr.
  apply keeps_bind.
  - destruct (getenv C "XDG_CONFIG_HOME").
    + destruct (malloc_ok C _);
        auto using keeps_ret, keeps_bind, keeps_emit.
    + destruct (getenv C "HOME"); auto using keeps_ret.
      destruct (malloc_ok C _);
        auto using keeps_ret, keeps_bind, keeps_emit.
  - intros [path|]; auto using keeps_ret, keeps_bind, keeps_emit.
    destruct (fopen C path) as [e|lines].
    + destruct (negb _); auto using keeps_ret, keeps_bind, keeps_emit.
    + auto using keeps_ret, keeps_bind, config_lines_keeps.
Qed.
End Keeps.

(** X4.  Cookie persistence can be switched on and never off.  A
    [Persist] entry of the configuration file switches it on whatever value
    it carries, and with no value at all; and once the flag is set, no
    configuration file and no command line clears it. *)
Theorem persistence_is_never_cleared (C : libc) :
  (forall line k v w,
     line_entry line = Some (k, v) -> streq k "Persist" = true ->
     config_line C line w = Ok (tt, with_args (set_persist_cookies true) w)) /\
  (forall w r w',
     read_config_file C w = Ok (r, w') ->
     arg_persist_cookies (globals w) = true ->
     arg_persist_cookies (globals w') = true) /\
  (forall opts w r w',
     parseargs C opts w = Ok (r, w') ->
     arg_persist_cookies (globals w) = true ->
     arg_persist_cookies (globals w') = true).
Proof.
  split; [|split].
  - intros line k v w He Hk. rewrite config_line_entry, He.
    destruct (config_keys_apart k) as (_ & _ & Kt).
    destruct (Kt Hk) as (Hu & Hp & Hc).
    unfold config_entry. now rewrite Hu, Hp, Hc, Hk.
  - intros w r w'.
    apply (read_config_file_keeps (fun a => arg_persist_cookies a = true));
      auto.
  - induction opts as [|[o a] rest IH]; intros w r w'; cbn [parseargs].
    + intros H. injection H as <- <-. auto.
    + repeat match goal with
             | |- (if ?b then _ else _) _ = _ -> _ => destruct b
             end;
        try (intros H; injection H as <- <-; auto; fail);
        try (intros H; apply bind_inv in H as ([] & w1 & H1 & H2);
             injection H1 as <-; intros Hp; eapply IH; eauto; fail).
      intros H. apply bind_inv in H as ([] & w1 & H1 & H2).
      injection H1 as <-. apply bind_inv in H2 as (a' & w2 & H2 & H3).
      injection H2 as <- <-. cbn [globals arg_category set_category] in H3.
      destruct (category_validate a).
      * intros Hp. eapply IH; eauto.
      * apply bind_inv in H3 as ([] & w3 & H3 & H4).
        injection H3 as <-. apply bind_inv in H4 as ([] & w4 & H4 & H5).
        rewrite usage_categories_run in H4. injection H4 as <-.
        injection H5 as <- <-. auto.
Qed.

Lemma persistence_is_never_cleared_witness :
  config_line (Demo.env (inl ENOENT)) "Persist = no"
              {| globals := initial_args; out := [] |}
  = Ok (tt, with_args (set_persist_cookies true)
              {| globals := initial_args; out := [] |}).
Proof.
  apply (proj1 (persistence_is_never_cleared (Demo.env (inl ENOENT)))
           "Persist = no" "Persist" (Some "no")); reflexivity.
Defined.

(** ** Entries of the configuration file *)

(** X5.  A line whose key is none of [User], [Password], [Cookies] and
    [Persist], compared byte for byte, changes nothing and writes nothing,
    whatever follows the key. *)
Theorem unrecognised_lines_are_ignored (C : libc) (line : string) (w : world) :
  (forall k v,
     line_entry line = Some (k, v) ->
     streq k "User" = false /\ streq k "Password" = false /\
     streq k "Cookies" = false /\ streq k "Persist" = false) ->
  config_line C line w = Ok (tt, w).
Proof.
  intros H. rewrite config_line_entry.
  destruct (line_entry line) as [[k v]|]; [|reflexivity].
  destruct (H k v eq_refl) as (Hu & Hp & Hc & Ht).
  unfold config_entry. now rewrite Hu, Hp, Hc, Ht.
Qed.

Lemma unrecognised_lines_are_ignored_witness :
  config_line (Demo.env (inl ENOENT)) "user = bob"
              {| globals := initial_args; out := [] |}
  = Ok (tt, {| globals := initial_args; out := [] |}).
Proof.
  apply (unrecognised_lines_are_ignored (Demo.env (inl ENOENT)) "user = bob").
  intros k v H. vm_compute in H. injection H as <- <-.
  repeat split; reflexivity.
Defined.

(** X6.  A [Cookies] entry sets the cookie file to the first word of the
    shell expansion of its value, the other words being dropped.  When
    [wordexp] returns a negative value, or the word cannot be copied, the
    entry writes the allocation error, leaves the cookie file as it was,
    and the reader goes on. *)
Theorem cookies_entry_takes_first_word
    (C : libc) (line k v : string) (r : Z) (we_wordv : list string) (w : world) :
  line_entry line = Some (k, Some v) -> streq k "Cookies" = true ->
  wordexp C v = (r, we_wordv) ->
  (r < 0 ->
     config_line C line w
     = Ok (tt, add_out w [Stderr ("error: failed to allocate memory" ++ nl)])) /\
  (forall x rest,
     0 <= r -> we_wordv = x :: rest -> malloc_ok C x = true ->
     config_line C line w = Ok (tt, with_args (set_cookiefile (Some x)) w)) /\
  (forall x rest,
     0 <= r -> we_wordv = x :: rest -> malloc_ok C x = false ->
     config_line C line w
     = Ok (tt, add_out w [Stderr ("error: failed to allocate memory" ++ nl)])).
Proof.
  intros He Hk Hw. rewrite config_line_entry, He.
  destruct (config_keys_apart k) as (_ & Kc & _).
  destruct (Kc Hk) as (Hu & Hp).
  unfold config_entry. rewrite Hu, Hp, Hk.
  cbv [bind shell_expand]. rewrite Hw. repeat split.
  - intros Hr. destruct (Z.ltb_spec r 0); [reflexivity | lia].
  - intros x rest Hr -> Hm. destruct (Z.ltb_spec r 0); [lia|].
    cbn [hd_error strdup]. now rewrite Hm.
  - intros x rest Hr -> Hm. destruct (Z.ltb_spec r 0); [lia|].
    cbn [hd_error strdup]. now rewrite Hm.
Qed.

Lemma cookies_entry_takes_first_word_witness :
  config_line (Demo.env (inl ENOENT)) "Cookies = /tmp/burp.cookies"
              {| globals := initial_args; out := [] |}
  = Ok (tt, with_args (set_cookiefile (Some "/tmp/burp.cookies"))
              {| globals := initial_args; out := [] |}).
Proof.
  apply (proj1 (proj2 (cookies_entry_takes_first_word (Demo.env (inl ENOENT))
                         "Cookies = /tmp/burp.cookies" "Cookies"
                         "/tmp/burp.cookies" 0 ["/tmp/burp.cookies"]
                         {| globals := initial_args; out := [] |}
                         eq_refl eq_refl eq_refl))
           "/tmp/burp.cookies" []); [lia | reflexivity | reflexivity].
Defined.

(** ** The option loop *)

Section StderrOnly.
Variable P : event -> Prop.
Hypothesis P_stderr : forall s, P (Stderr s).

Lemma stderr_outputs s : outputs P (fprintf_stderr s).
Proof. apply outputs_emit, P_stderr. Qed.

Lemma print_categories_outputs l : outputs P (print_categories l).
Proof.
  induction l; cbn [print_categories];
    auto using outputs_ret, outputs_bind, stderr_outputs.
Qed.

Lemma usage_categories_outputs : outputs P usage_categories.
Proof.
  unfold usage_categories.
  auto using outputs_bind, stderr_outputs, print_categories_outputs.
Qed.

Lemma usage_outputs C : outputs P (usage C).
Proof. unfold usage. auto using outputs_bind, stderr_outputs. Qed.

Lemma parseargs_outputs C opts : outputs P (parseargs C opts).
Proof.
  induction opts as [|[opt optarg] rest IH]; cbn [parseargs];
    auto using outputs_ret.
  repeat match goal with
         | |- outputs _ (if ?b then _ else _) => destruct b
         end;
    auto using outputs_ret, outputs_bind, outputs_modify, usage_outputs.
  apply outputs_bind; auto using outputs_modify. intros _.
  apply outputs_bind; auto using outputs_get. intros a.
  destruct (arg_category a);
    auto 6 using outputs_ret, outputs_bind, stderr_outputs,
      usage_categories_outputs.
Qed.

Lemma config_entry_outputs C key value : outputs P (config_entry C key value).
Proof.
  unfold config_entry.
  repeat match goal with
         | |- outputs _ (if ?b then _ else _) => destruct b
         end;
    auto using outputs_ret, outputs_modify;
    apply outputs_bind;
    try (intros [v|]; auto using stderr_outputs, outputs_modify).
  - destruct value; cbn; auto using outputs_ret, outputs_fault.
  - destruct value; cbn; auto using outputs_ret, outputs_fault.
  - destruct value as [s|]; cbn; auto using outputs_fault.
    destruct (wordexp C s) as [r wv]. destruct (r <? 0); auto using outputs_ret.
    destruct (hd_error wv); cbn; auto using outputs_ret, outputs_fault.
Qed.

Lemma read_config_file_outputs C : outputs P (read_config_file C).
Proof.
  assert (forall lines, outputs P (config_lines C lines)) as Hl.
  { induction lines as [|line rest IH]; cbn [config_lines];
      auto using outputs_ret.
    apply outputs_bind; auto. rewrite config_line_entry.
    destruct (line_entry line) as [[k v]|];
      auto using outputs_ret, config_entry_outputs. }
  unfold read_config_file, find_config_file, config_path_from.
  apply outputs_bind.
  - destruct (getenv C "XDG_CONFIG_HOME").
    + destruct (malloc_ok C _);
        auto using outputs_ret, outputs_bind, stderr_outputs.
    + destruct (getenv C "HOME"); auto using outputs_ret.
      destruct (malloc_ok C _);
        auto using outputs_ret, outputs_bind, stderr_outputs.
  - intros [path|]; auto using outputs_ret, outputs_bind, stderr_outputs.
    destruct (fopen C path) as [e|lines].
    + destruct (negb _); auto using outputs_ret, outputs_bind, stderr_outputs.
    + auto using outputs_ret, outputs_bind.
Qed.
End StderrOnly.

Lemma parseargs_returns C opts : forall w,
  exists r w', parseargs C opts w = Ok (r, w') /\ (r = 0 \/ r = - EINVAL).
Proof.
  induction opts as [|[o a] rest IH]; intros w; cbn [parseargs].
  - do 2 eexists. split; [reflexivity | auto].
  - repeat match goal with
           | |- context [if ?b then _ else _] => destruct b
           end;
      try (do 2 eexists; split; [reflexivity | auto]; fail);
      try (cbv [bind modify_args]; apply IH).
    cbv [bind modify_args get_args]. cbn [globals arg_category set_category].
    destruct (category_validate a); [apply IH|].
    cbv [fprintf_stderr emit]. rewrite usage_categories_run.
    do 2 eexists. split; [reflexivity | auto].
Qed.

(** X7.  Whatever the options, [parseargs] returns, with 0 or with
    [-EINVAL] and nothing else, and all it writes goes to the error
    stream. *)
Theorem parseargs_returns_zero_or_einval (C : libc)
    (opts : list (Z * string)) (w : world) :
  exists r w' evs,
    parseargs C opts w = Ok (r, w') /\
    (r = 0 \/ r = - EINVAL) /\
    out w' = (out w ++ evs)%list /\
    Forall (fun e => is_stderr e = true) evs.
Proof.
  destruct (parseargs_returns C opts w) as (r & w' & H & Hr).
  destruct (parseargs_outputs (fun e => is_stderr e = true)
              (fun _ => eq_refl) C opts _ _ _ H) as (evs & E & F).
  exists r, w', evs. auto.
Qed.

Lemma parseargs_app C pre :
  forallb accepted_option pre = true ->
  forall post w,
    parseargs C (pre ++ post) w
    = match parseargs C pre w with
      | Ok (_, w1) => parseargs C post w1
      | Fault => Fault
      end.
Proof.
  induction pre as [|[o a] pre IH]; intros Hacc post w.
  - reflexivity.
  - cbn [forallb] in Hacc. apply andb_prop in Hacc as [Ho Hpre].
    specialize (IH Hpre post). unfold accepted_option in Ho.
    repeat (apply orb_prop in Ho as [Ho|Ho]).
    all: try (apply andb_prop in Ho as [Ho Hcat]).
    all: apply Z.eqb_eq in Ho; subst o.
    all: cbn [parseargs app].
    all: repeat match goal with
         | |- context [?a <? ?b] => change (a <? b) with false
         | |- context [?a =? ?b] =>
             first [change (a =? b) with false | change (a =? b) with true]
         end; cbv iota.
    all: cbv [bind modify_args get_args]; cbn [globals out arg_category set_category].
    all: try (destruct (category_validate a) as [i|] eqn:Hv; [|discriminate]).
    all: apply IH.
Qed.

Lemma parseargs_refused C o a post w :
  accepted_option (o, a) = false ->
  parseargs C ((o, a) :: post) w = parseargs C [(o, a)] w.
Proof.
  unfold accepted_option. intros H.
  repeat (apply orb_false_elim in H as [H ?]).
  cbn [parseargs]. destruct (o <? 0); auto.
  repeat match goal with
         | E : ?b = false |- context [if ?b then _ else _] => rewrite E
         end.
  destruct (o =? opt_c) eqn:Ec.
  - cbv [bind modify_args get_args]. cbn [globals arg_category set_category].
    destruct (category_validate a); [discriminate | reflexivity].
  - destruct (o =? opt_h); reflexivity.
Qed.

(** X8.  Options are handled from left to right up to the first one that
    is refused (an option burp does not have, a category that is not in
    the table) or asks for help; what follows it on the command line is
    never looked at.  The options before it have taken effect; a refused
    option gives [-EINVAL], the request for help gives 0. *)
Theorem parseargs_stops_at_first_refusal
    (C : libc) (pre post : list (Z * string)) (o : Z) (a : string) (w : world) :
  forallb accepted_option pre = true ->
  accepted_option (o, a) = false ->
  0 <= o ->
  exists args1 r w',
    parseargs C pre w = Ok (0, {| globals := args1; out := out w |}) /\
    parseargs C (pre ++ (o, a) :: post) w = Ok (r, w') /\
    parseargs C [(o, a)] {| globals := args1; out := out w |} = Ok (r, w') /\
    (o = opt_h -> r = 0 /\ globals w' = args1) /\
    (o <> opt_h -> r = - EINVAL).
Proof.
  intros Hpre Ho Hpos.
  destruct (parseargs_accepted C pre Hpre w) as (args1 & H1 & _).
  destruct (parseargs_returns C [(o, a)] {| globals := args1; out := out w |})
    as (r & w' & H2 & Hr).
  exists args1, r, w'. split; [exact H1|].
  rewrite (parseargs_app C pre Hpre), H1, parseargs_refused by exact Ho.
  split; [exact H2|]. split; [exact H2|]. split.
  - intros ->. revert H2. cbn [parseargs].
    change (opt_h <? 0) with false. change (opt_h =? opt_C) with false.
    change (opt_h =? opt_c) with false. change (opt_h =? opt_h) with true.
    cbv iota. intros H2. injection H2 as <- <-. split; reflexivity.
  - intros Hh. revert H2. unfold accepted_option in Ho.
    repeat (apply orb_false_elim in Ho as [Ho ?]).
    cbn [parseargs]. destruct (Z.ltb_spec o 0); [lia|].
    repeat match goal with
           | E : ?b = false |- context [if ?b then _ else _] => rewrite E
           end.
    destruct (o =? opt_c) eqn:Ec.
    + cbv [bind modify_args get_args]. cbn [globals arg_category set_category].
      destruct (category_validate a); [discriminate|].
      cbv [fprintf_stderr emit]. rewrite usage_categories_run.
      intros Hrun. injection Hrun as <- _. reflexivity.
    + destruct (Z.eqb_spec o opt_h); [contradiction|].
      intros Hrun. injection Hrun as <- _. reflexivity.
Qed.

Lemma parseargs_stops_at_first_refusal_witness :
  exists w',
    parseargs (Demo.env (inl ENOENT))
              [(opt_u, "bob"); (opt_c, "nonesuch"); (opt_p, "secret")]
              {| globals := initial_args; out := [] |}
    = Ok (- EINVAL, w') /\
    arg_username (globals w') = Some "bob" /\
    arg_password (globals w') = None.
Proof.
  destruct (parseargs_stops_at_first_refusal (Demo.env (inl ENOENT))
              [(opt_u, "bob")] [(opt_p, "secret")] opt_c "nonesuch"
              {| globals := initial_args; out := [] |}
              eq_refl eq_refl ltac:(discriminate))
    as (args1 & r & w' & H1 & H2 & H3 & _ & Hr).
  exists w'. rewrite (Hr ltac:(discriminate)) in H2. split; [exact H2|].
  injection H1 as <-. vm_compute in H3. injection H3 as _ <-.
  split; reflexivity.
Defined.

(** ** From the command line to the session *)

Section ClientSetup.
Variable C : libc.
Context {aur_t : Type} {A : AurClient aur_t}.

Lemma main_after_parse cmd w r w2 :
  parseargs C (getopt_seq cmd) w = Ok (r, w2) ->
  main_after_config C cmd w
  = if r <? 0 then Ok (EXIT_FAILURE, w2)
    else
      let a := globals w2 in
      let (r3, aur) := aur_new (arg_domain a) true in
      if r3 <? 0 then
        Ok (EXIT_FAILURE,
            add_out w2 [AurNew (arg_domain a) true;
                        Stderr ("error: failed to create AUR client: "
                                ++ strerror C (- r3) ++ nl)])
      else
        session C (configure aur a) (operands cmd)
                (add_out w2 (AurNew (arg_domain a) true :: setter_events a)).
Proof.
  intros H. unfold main_after_config. rewrite (bind_run _ _ _ _ _ H).
  destruct (r <? 0); [reflexivity|].
  cbv [bind get_args emit fprintf_stderr ret]. cbn [globals out].
  cbv zeta. destruct (aur_new (arg_domain (globals w2)) true) as [r3 aur].
  destruct (r3 <? 0).
  - unfold add_out. cbn [globals out]. now rewrite <- app_assoc.
  - unfold set_if, configure, setter_events, add_out.
    destruct (arg_username (globals w2)), (arg_password (globals w2)),
      (arg_cookiefile (globals w2)), (arg_persist_cookies (globals w2));
      cbv [bind emit ret]; cbn [globals out app];
      rewrite <- ?app_assoc; reflexivity.
Qed.

(** X9.  The client is created for the domain in [arg_domain].  When its
    creation fails, [main] writes the error and ends with [EXIT_FAILURE]
    without any login.  Otherwise the user name, the password, the cookie
    file and the persistence flag are handed to the client, in that order
    and only those that are set, and the session starts from that
    client. *)
Theorem client_is_configured_before_login
    (cmd : cmdline) (w w2 : world) (r r3 : Z) (aur : aur_t) :
  parseargs C (getopt_seq cmd) w = Ok (r, w2) -> 0 <= r ->
  aur_new (arg_domain (globals w2)) true = (r3, aur) ->
  (r3 < 0 ->
     main_after_config C cmd w
     = Ok (EXIT_FAILURE,
           add_out w2 [AurNew (arg_domain (globals w2)) true;
                       Stderr ("error: failed to create AUR client: "
                               ++ strerror C (- r3) ++ nl)])) /\
  (0 <= r3 ->
     main_after_config C cmd w
     = session C (configure aur (globals w2)) (operands cmd)
               (add_out w2 (AurNew (arg_domain (globals w2)) true
                            :: setter_events (globals w2)))).
Proof.
  intros Hp Hr Hn. rewrite (main_after_parse _ _ _ _ Hp). cbv zeta.
  rewrite Hn. destruct (Z.ltb_spec r 0); [lia|].
  split; intros H3; destruct (Z.ltb_spec r3 0); auto; lia.
Qed.

Lemma main_cases cmd w status w' :
  main C cmd w = Ok (status, w') ->
  exists r0 w1,
    read_config_file C w = Ok (r0, w1) /\
    ((r0 < 0 /\ status = EXIT_FAILURE /\ w' = w1) \/
     (0 <= r0 /\
      exists r w2,
        parseargs C (getopt_seq cmd) w1 = Ok (r, w2) /\
        main_after_config C cmd w1 = Ok (status, w'))).
Proof.
  unfold main. intros H. apply bind_inv in H as (r0 & w1 & H0 & H).
  exists r0, w1. split; auto.
  destruct (Z.ltb_spec r0 0).
  - left. injection H as <- <-. auto.
  - right. split; auto.
    destruct (parseargs_returns C (getopt_seq cmd) w1) as (r & w2 & Hp & _).
    eauto.
Qed.
End ClientSetup.

Lemma client_is_configured_before_login_witness :
  main_after_config (Demo.env (inl ENOENT)) (A := Demo.client (- EACCES) 0 (fun _ => 0))
    {| getopt_seq := [(opt_u, "bob"); (opt_k, "")]; operands := ["a"] |}
    {| globals := initial_args; out := [] |}
  = Ok (EXIT_FAILURE,
        {| globals := set_persist_cookies true
                        (set_username (Some "bob") initial_args);
           out := [AurNew "aur.archlinux.org" true; AurSetUsername "bob";
                   AurSetPersistCookies true; AurLogin false;
                   Stderr ("error: bad username or password." ++ nl)] |}).
Proof.
  rewrite (proj2 (client_is_configured_before_login (Demo.env (inl ENOENT))
                    (A := Demo.client (- EACCES) 0 (fun _ => 0))
                    {| getopt_seq := [(opt_u, "bob"); (opt_k, "")];
                       operands := ["a"] |}
                    {| globals := initial_args; out := [] |}
                    {| globals := set_persist_cookies true
                                    (set_username (Some "bob") initial_args);
                       out := [] |}
                    0 0 0%nat eq_refl ltac:(lia) eq_refl) ltac:(lia)).
  reflexivity.
Defined.

(** ** Runs of the session and of [main] *)

Section Runs.
Variable C : libc.
Context {aur_t : Type} {A : AurClient aur_t}.

(** The two ways a session ends. *)
Lemma session_cases (aur : aur_t) targets w :
  exists r aur1 evs0,
    login aur w = Ok ((r, aur1), add_out w evs0) /\
    (evs0 = [AurLogin false] \/
     evs0 = [AurLogin false; expiry_warning; AurLogin true] \/
     evs0 = [AurLogin false; AurLogin true]) /\
    ((r < 0 /\
      exists msg,
        session C aur targets w
        = Ok (EXIT_FAILURE, add_out w (evs0 ++ [Stderr msg]))) \/
     (0 <= r /\
      exists status,
        (status = EXIT_SUCCESS \/ status = EXIT_FAILURE) /\
        session C aur targets w
        = Ok (status,
              add_out w (evs0
                         ++ flat_map (report C (arg_category (globals w)))
                              (outcomes aur1 (arg_category (globals w)) targets)
                         ++ [AurFree])))).
Proof.
  destruct (login_run aur w) as ([r aur1] & evs0 & Hl & Hev).
  exists r, aur1, evs0. split; auto. split; auto.
  destruct (Z_lt_dec r 0) as [Hneg|Hpos].
  - left. split; auto.
    rewrite (session_after_login C _ _ _ _ _ _ Hl).
    destruct (Z.ltb_spec r 0); [|lia].
    destruct (make_login_error_run C r (add_out w evs0)) as [msg ->].
    exists msg. now rewrite add_out_app.
  - right. split; [lia|].
    rewrite (session_uploads C _ _ _ _ _ _ Hl) by lia.
    cbn [add_out globals]. rewrite add_out_app.
    eexists. split; [|reflexivity].
    destruct (_ =? 0); auto.
Qed.

(** X10.  A command line with an option that is refused ends [main] with
    [EXIT_FAILURE] before the client is created: nothing but lines on the
    error stream has happened.  The request for help does not end the run:
    after the help text [main] goes on and creates the client. *)
Theorem refused_option_ends_main_help_does_not
    (cmd : cmdline) (pre post : list (Z * string)) (o : Z) (a : string)
    (w w1 : world) (r0 : Z) :
  read_config_file C w = Ok (r0, w1) -> 0 <= r0 ->
  getopt_seq cmd = (pre ++ (o, a) :: post)%list ->
  forallb accepted_option pre = true ->
  accepted_option (o, a) = false -> 0 <= o ->
  (o <> opt_h ->
     exists w' evs,
       main C cmd w = Ok (EXIT_FAILURE, w') /\
       out w' = (out w ++ evs)%list /\
       Forall (fun e => is_stderr e = true) evs) /\
  (o = opt_h ->
     exists w2 status evs,
       parseargs C (getopt_seq cmd) w1 = Ok (0, w2) /\
       main C cmd w
       = Ok (status,
             add_out w2 (AurNew (arg_domain (globals w2)) true :: evs))).
Proof.
  intros Hcfg Hr0 Hopts Hpre Ho Hpos.
  destruct (parseargs_stops_at_first_refusal C pre post o a w1 Hpre Ho Hpos)
    as (args1 & r & w2 & _ & Hp & _ & Hh & Hn).
  rewrite <- Hopts in Hp.
  assert (main C cmd w = main_after_config C cmd w1) as Hmain.
  { unfold main. rewrite (bind_run _ _ _ _ _ Hcfg).
    destruct (Z.ltb_spec r0 0); [lia | reflexivity]. }
  split.
  - intros Hne. rewrite (Hn Hne) in Hp.
    exists w2. rewrite Hmain, (main_after_parse C _ _ _ _ Hp).
    destruct (read_config_file_outputs (fun e => is_stderr e = true)
                (fun _ => eq_refl) C _ _ _ Hcfg) as (e1 & E1 & F1).
    destruct (parseargs_outputs (fun e => is_stderr e = true)
                (fun _ => eq_refl) C _ _ _ _ Hp) as (e2 & E2 & F2).
    exists (e1 ++ e2)%list. split; [reflexivity|].
    rewrite E2, E1, app_assoc. split; auto. now apply Forall_app.
  - intros Hhelp. destruct (Hh Hhelp) as [-> _].
    exists w2. rewrite Hmain, (main_after_parse C _ _ _ _ Hp).
    cbn [Z.ltb Z.compare]. cbv zeta.
    destruct (aur_new (arg_domain (globals w2)) true) as [r3 aur].
    destruct (r3 <? 0).
    + do 2 eexists. split; [exact Hp|]. reflexivity.
    + destruct (session_run C (configure aur (globals w2)) (operands cmd)
                  (add_out w2 (AurNew (arg_domain (globals w2)) true
                               :: setter_events (globals w2))))
        as (status & evs & -> & _).
      exists status. eexists. split; [exact Hp|].
      rewrite add_out_app. reflexivity.
Qed.
End Runs.

Lemma refused_option_ends_main_help_does_not_witness :
  exists w2 status evs,
    parseargs (Demo.env (inl ENOENT)) [(opt_h, ""); (opt_u, "bob")]
              {| globals := initial_args; out := [] |} = Ok (0, w2) /\
    main (Demo.env (inl ENOENT)) (A := Demo.client 0 0 (fun _ => 0))
         {| getopt_seq := [(opt_h, ""); (opt_u, "bob")]; operands := [] |}
         {| globals := initial_args; out := [] |}
    = Ok (status, add_out w2 (AurNew (arg_domain (globals w2)) true :: evs)).
Proof.
  apply (proj2 (refused_option_ends_main_help_does_not (Demo.env (inl ENOENT))
                  (A := Demo.client 0 0 (fun _ => 0))
                  {| getopt_seq := [(opt_h, ""); (opt_u, "bob")]; operands := [] |}
                  [] [(opt_u, "bob")] opt_h ""
                  {| globals := initial_args; out := [] |}
                  {| globals := initial_args; out := [] |} 0
                  eq_refl ltac:(lia) eq_refl eq_refl eq_refl ltac:(discriminate))
           eq_refl).
Defined.

Section MainRuns.
Variable C : libc.
Context {aur_t : Type} {A : AurClient aur_t}.

Lemma setter_events_setup a : Forall (fun e => is_setup e = true) (setter_events a).
Proof.
  unfold setter_events.
  destruct (arg_username a), (arg_password a), (arg_cookiefile a),
    (arg_persist_cookies a); repeat constructor.
Qed.

(** A run of [main] that returns: what came before the session, and the
    session if there was one. *)
Lemma main_trace cmd w status w' :
  main C cmd w = Ok (status, w') ->
  exists r0 w1 pre,
    read_config_file C w = Ok (r0, w1) /\
    Forall (fun e => is_setup e = true) pre /\
    ((status = EXIT_FAILURE /\ out w' = (out w ++ pre)%list) \/
     (exists r w2 (aur : aur_t) w3,
        0 <= r0 /\ parseargs C (getopt_seq cmd) w1 = Ok (r, w2) /\ 0 <= r /\
        globals w3 = globals w2 /\ out w3 = (out w ++ pre)%list /\
        session C aur (operands cmd) w3 = Ok (status, w'))).
Proof.
  intros H. destruct (main_cases C _ _ _ _ H) as (r0 & w1 & Hcfg & Hcase).
  destruct (read_config_file_outputs (fun e => is_setup e = true)
              (fun _ => eq_refl) C _ _ _ Hcfg) as (e1 & E1 & F1).
  exists r0, w1.
  destruct Hcase as [(Hneg & -> & ->) | (Hpos & r & w2 & Hp & Hm)].
  { exists e1. auto. }
  destruct (parseargs_outputs (fun e => is_setup e = true)
              (fun _ => eq_refl) C _ _ _ _ Hp) as (e2 & E2 & F2).
  rewrite (main_after_parse C _ _ _ _ Hp) in Hm.
  destruct (Z.ltb_spec r 0).
  { injection Hm as <- <-. exists (e1 ++ e2)%list.
    split; auto. split; [now apply Forall_app|].
    left. split; auto. now rewrite E2, E1, app_assoc. }
  cbv zeta in Hm.
  destruct (aur_new (arg_domain (globals w2)) true) as [r3 aur].
  destruct (r3 <? 0).
  { injection Hm as <- <-.
    eexists (e1 ++ e2 ++ [AurNew _ true; Stderr _])%list.
    split; auto. split.
    - apply Forall_app; split; [exact F1|].
      apply Forall_app; split; [exact F2|]. repeat constructor.
    - left. split; auto. cbn [add_out out].
      now rewrite E2, E1, <- !app_assoc. }
  exists (e1 ++ e2 ++ AurNew (arg_domain (globals w2)) true
             :: setter_events (globals w2))%list.
  split; auto. split.
  - apply Forall_app; split; [exact F1|].
    apply Forall_app; split; [exact F2|].
    constructor; [reflexivity | apply setter_events_setup].
  - right.
    exists r, w2, (configure aur (globals w2)),
      (add_out w2 (AurNew (arg_domain (globals w2)) true
                   :: setter_events (globals w2))).
    repeat split; auto.
    cbn [add_out out]. now rewrite E2, E1, <- !app_assoc.
Qed.

Lemma report_events cat os e :
  In e (flat_map (report C cat) os) ->
  (exists t, e = AurUpload t cat) \/ (exists s, e = Stdout s) \/
  (exists s, e = Stderr s).
Proof.
  induction os as [|[[t k] err] os IH]; cbn [flat_map]; [contradiction|].
  intros H. apply in_app_or in H as [H|H]; auto.
  unfold report in H. destruct H as [<-|[<-|[]]]; eauto.
  destruct (k =? 0); eauto.
Qed.


(** X12.  When the login with the cookie fails for an expired or a
    missing cookie and the login with the password fails too, the
    diagnostic and the outcome are those of the second failure: the session
    writes the message for the second code and ends with [EXIT_FAILURE]
    after two logins, with no upload and without freeing the client. *)
Theorem fallback_failure_reports_second_code
    (aur aur1 aur2 : aur_t) (r1 r2 : Z) (targets : list string) (w : world) :
  aur_login aur false = (r1, aur1) ->
  r1 = - EKEYEXPIRED \/ r1 = - ENOKEY ->
  aur_login aur1 true = (r2, aur2) ->
  r2 < 0 ->
  exists evs0,
    (evs0 = [AurLogin false; expiry_warning; AurLogin true] \/
     evs0 = [AurLogin false; AurLogin true]) /\
    login aur w = Ok ((r2, aur2), add_out w evs0) /\
    session C aur targets w = make_login_error C r2 (add_out w evs0) /\
    exists msg,
      session C aur targets w
      = Ok (EXIT_FAILURE, add_out w (evs0 ++ [Stderr msg])).
Proof.
  intros H1 Hr1 H2 Hr2.
  assert (exists evs0,
            (evs0 = [AurLogin false; expiry_warning; AurLogin true] \/
             evs0 = [AurLogin false; AurLogin true]) /\
            login aur w = Ok ((r2, aur2), add_out w evs0))
    as (evs0 & Hev & Hl).
  { destruct Hr1 as [-> | ->].
    - eexists. split; [left; reflexivity|].
      rewrite (login_expired aur aur1 w H1), H2. reflexivity.
    - eexists. split; [right; reflexivity|].
      rewrite (login_nokey aur aur1 w H1), H2. reflexivity. }
  exists evs0. split; auto. split; auto.
  rewrite (session_after_login C _ _ _ _ _ _ Hl).
  destruct (Z.ltb_spec r2 0); [|lia]. split; auto.
  destruct (make_login_error_run C r2 (add_out w evs0)) as [msg ->].
  exists msg. now rewrite add_out_app.
Qed.

Lemma category_validate_valid a i :
  category_validate a = Some i -> valid_category (Some i).
Proof.
  unfold category_validate, bsearch.
  destruct (bsearch_loop _ _ _ _ _) as [e|] eqn:Hb; [|discriminate].
  intros <-. apply bsearch_loop_sound in Hb as (n & _ & Hn & _).
  right. exists e. split; auto. eapply nth_error_In; eauto.
Qed.

Lemma parseargs_category opts : forall w r w',
  parseargs C opts w = Ok (r, w') -> 0 <= r ->
  valid_category (arg_category (globals w)) ->
  valid_category (arg_category (globals w')).
Proof.
  induction opts as [|[o a] rest IH]; intros w r w'; cbn [parseargs].
  - intros H. injection H as <- <-. auto.
  - repeat match goal with
           | |- (if ?b then _ else _) _ = _ -> _ => destruct b
           end;
      try (intros H; injection H as <- <-; auto; fail);
      try (intros H; apply bind_inv in H as ([] & w1 & H1 & H2);
           injection H1 as <-; intros Hr Hv; eapply IH; eauto; fail).
    intros H. apply bind_inv in H as ([] & w1 & H1 & H2).
    injection H1 as <-. apply bind_inv in H2 as (a' & w2 & H2 & H3).
    injection H2 as <- <-. cbn [globals arg_category set_category] in H3.
    destruct (category_validate a) as [i|] eqn:Hv.
    + intros Hr _. eapply IH; eauto. cbn.
      eapply category_validate_valid; eauto.
    + apply bind_inv in H3 as ([] & w3 & H3 & H4).
      injection H3 as <-. apply bind_inv in H4 as ([] & w4 & H4 & H5).
      injection H5 as <- _. intros Hr. unfold EINVAL in Hr. lia.
Qed.

(** X13.  Starting from a category that is the initial id or an id of the
    table, every upload of a run of [main] carries one and the same
    category, and that category is again the initial id or an id of the
    table: a name given on the command line is never sent as it is, and
    neither is NULL. *)
Theorem uploads_carry_one_valid_category
    (cmd : cmdline) (w w' : world) (status : Z) :
  valid_category (arg_category (globals w)) ->
  main C cmd w = Ok (status, w') ->
  exists evs c,
    out w' = (out w ++ evs)%list /\
    valid_category c /\
    forall t c', In (AurUpload t c') evs -> c' = c.
Proof.
  intros Hv H.
  destruct (main_trace _ _ _ _ H) as (r0 & w1 & pre & Hcfg & Fpre & Hcase).
  assert (forall t c', ~ In (AurUpload t c') pre) as Hpre.
  { intros t c' Hin. rewrite Forall_forall in Fpre.
    specialize (Fpre _ Hin). discriminate. }
  destruct Hcase as [(-> & E) | (r & w2 & aur & w3 & _ & Hp & Hr & G3 & E3 & Hs)].
  { exists pre, (arg_category (globals w)). repeat split; auto.
    intros t c' Hin. now apply Hpre in Hin. }
  assert (valid_category (arg_category (globals w2))) as Hv2.
  { eapply parseargs_category; eauto.
    apply (read_config_file_keeps (fun a => valid_category (arg_category a)))
      with (C := C) (w := w) (x := r0); auto. }
  destruct (session_cases C aur (operands cmd) w3)
    as (rl & aur1 & evs0 & _ & Hev & Hend).
  assert (forall t c', ~ In (AurUpload t c') evs0) as H0.
  { intros t c' Hin.
    destruct Hev as [-> | [-> | ->]]; cbn in Hin;
      repeat destruct Hin as [Hin|Hin]; try discriminate Hin; auto. }
  destruct Hend as [(_ & msg & Hf) | (_ & st & _ & Hok)].
  - rewrite Hf in Hs. injection Hs as _ <-.
    exists (pre ++ evs0 ++ [Stderr msg])%list, (arg_category (globals w2)).
    cbn [add_out out]. rewrite E3, <- !app_assoc. repeat split; auto.
    intros t c' Hin. exfalso.
    apply in_app_or in Hin as [Hin|Hin]; [now apply Hpre in Hin|].
    apply in_app_or in Hin as [Hin|Hin]; [now apply H0 in Hin|].
    destruct Hin as [Hin|[]]. discriminate Hin.
  - rewrite Hok in Hs. injection Hs as _ <-.
    eexists (pre ++ evs0 ++ flat_map _ _ ++ [AurFree])%list,
      (arg_category (globals w2)).
    cbn [add_out out]. rewrite E3, <- !app_assoc.
    split; [reflexivity|]. split; auto.
    intros t c' Hin.
    apply in_app_or in Hin as [Hin|Hin]; [now apply Hpre in Hin|].
    apply in_app_or in Hin as [Hin|Hin]; [now apply H0 in Hin|].
    apply in_app_or in Hin as [Hin|Hin].
    + apply report_events in Hin as [[t' E] | [[s E] | [s E]]];
        try discriminate E.
      injection E as _ ->. now rewrite G3.
    + destruct Hin as [Hin|[]]. discriminate Hin.
Qed.

Lemma upload_loop_app ts1 : forall ts2 (aur : aur_t) r w,
  upload_loop C aur (ts1 ++ ts2) r w
  = match upload_loop C aur ts1 r w with
    | Ok ((r1, aur1), w1) => upload_loop C aur1 ts2 r1 w1
    | Fault => Fault
    end.
Proof.
  induction ts1 as [|t ts1 IH]; intros ts2 aur r w.
  - reflexivity.
  - cbn [app upload_loop].
    cbv [bind get_args do_upload emit ret printf fprintf_stderr].
    cbn [globals out].
    destruct (aur_upload aur t (arg_category (globals w))) as [[k e] aur1].
    destruct (k =? 0); apply IH.
Qed.

(** X14.  The upload loop can be cut anywhere: running it on a list is
    running it on the first part and then, from the client and the [r] it
    leaves, on the rest.  A value of [r] that is not 0 is never replaced,
    while every target is still uploaded; so after a login that returned a
    positive value the process ends with [EXIT_FAILURE] even when every
    upload succeeds. *)
Theorem first_error_is_kept :
  (forall ts1 ts2 (aur : aur_t) r w,
     upload_loop C aur (ts1 ++ ts2) r w
     = match upload_loop C aur ts1 r w with
       | Ok ((r1, aur1), w1) => upload_loop C aur1 ts2 r1 w1
       | Fault => Fault
       end) /\
  (forall ts (aur : aur_t) r w,
     r <> 0 ->
     exists aur',
       upload_loop C aur ts r w
       = Ok ((r, aur'),
             add_out w (flat_map (report C (arg_category (globals w)))
                          (outcomes aur (arg_category (globals w)) ts)))) /\
  (forall (aur aur1 : aur_t) r targets w w1,
     login aur w = Ok ((r, aur1), w1) -> 0 < r ->
     session C aur targets w
     = Ok (EXIT_FAILURE,
           add_out w1 (flat_map (report C (arg_category (globals w1)))
                         (outcomes aur1 (arg_category (globals w1)) targets)
                       ++ [AurFree]))).
Proof.
  split; [intros; apply upload_loop_app|]. split.
  - intros ts aur r w Hr.
    destruct (upload_loop_run C ts aur r w) as [aur' H].
    exists aur'. rewrite H. destruct (Z.eqb_spec r 0); [contradiction|].
    reflexivity.
  - intros aur aur1 r targets w w1 Hl Hr.
    rewrite (session_uploads C _ _ _ _ _ _ Hl) by lia.
    destruct (Z.eqb_spec r 0); [lia|].
    destruct (Z.eqb_spec r 0); [lia | reflexivity].
Qed.
End MainRuns.


Lemma fallback_failure_reports_second_code_witness :
  exists msg,
    session (Demo.env (inl ENOENT))
            (A := Demo.client (- EKEYEXPIRED) (- EACCES) (fun _ => 0))
            0%nat ["a"] {| globals := initial_args; out := [] |}
    = Ok (EXIT_FAILURE,
          add_out {| globals := initial_args; out := [] |}
                  ([AurLogin false; expiry_warning; AurLogin true]
                   ++ [Stderr msg])).
Proof.
  destruct (fallback_failure_reports_second_code (Demo.env (inl ENOENT))
              (A := Demo.client (- EKEYEXPIRED) (- EACCES) (fun _ => 0))
              0%nat 1%nat 2%nat (- EKEYEXPIRED) (- EACCES) ["a"]
              {| globals := initial_args; out := [] |}
              eq_refl (or_introl eq_refl) eq_refl ltac:(reflexivity))
    as (evs0 & [-> | ->] & Hl & _ & Hm).
  - exact Hm.
  - vm_compute in Hl. discriminate Hl.
Defined.

Lemma uploads_carry_one_valid_category_witness :
  exists evs c,
    [AurNew "aur.archlinux.org" true; AurLogin false;
     AurUpload "a" (Some "6"); Stdout ("success: uploaded a" ++ nl);
     AurUpload "b" (Some "6"); Stdout ("success: uploaded b" ++ nl);
     AurFree] = evs /\
    valid_category c /\
    forall t c', In (AurUpload t c') evs -> c' = c.
Proof.
  exact (uploads_carry_one_valid_category (Demo.env (inl ENOENT))
           (A := Demo.client 0 0 (fun _ => 0))
           {| getopt_seq := [(opt_c, "games")]; operands := ["a"; "b"] |}
           {| globals := initial_args; out := [] |} _ _
           (or_introl eq_refl) eq_refl).
Defined.

Lemma first_error_is_kept_witness :
  exists aur',
    upload_loop (Demo.env (inl ENOENT)) (A := Demo.client 0 0 (fun _ => 0))
                0%nat ["a"] 7 {| globals := initial_args; out := [] |}
    = Ok ((7, aur'),
          {| globals := initial_args;
             out := [AurUpload "a" (Some "1");
                     Stdout ("success: uploaded a" ++ nl)] |}).
Proof.
  destruct (proj1 (proj2 (first_error_is_kept (Demo.env (inl ENOENT))
                            (A := Demo.client 0 0 (fun _ => 0))))
              ["a"] 0%nat 7 {| globals := initial_args; out := [] |}
              ltac:(discriminate)) as [aur' H].
  exists aur'. exact H.
Defined.

Lemma strtrim_strips_both_ends_witness :
  strtrim (Some ("  a b " ++ nl)) = (3%nat, Some "a b") /\
  isspace "b" = false.
Proof.
  destruct (strtrim_strips_both_ends ("  a b " ++ nl))
    as (_ & Hrun & _ & Hlast & _).
  split; [exact Hrun|].
  apply (Hlast "a "). reflexivity.
Defined.

(** ** The effective parameters of a run *)




